(** * A weighted semaphore with resizable capacity: model and properties

    Shallow embedding of [semaphore.go].  The struct [Weighted] is a record,
    [int64] fields are integers with two's complement wrap-around written
    out, the two [container/list] queues are lists of elements carrying the
    identity of the Go [*list.Element], and every critical section (the code
    between [s.mu.Lock()] and [s.mu.Unlock()]) is one function of the state.
    A blocked [Acquire] call is kept in a world state together with the set
    of closed channels, so that interleavings of calls are lists of
    operations. *)

From Stdlib Require Import ZArith List Bool Lia String Permutation.
Import ListNotations.
Open Scope Z_scope.

(** ** int64 arithmetic *)

Module Int64.

Definition min_int : Z := - 2 ^ 63.
Definition max_int : Z := 2 ^ 63 - 1.

Definition in_range (z : Z) : Prop := min_int <= z <= max_int.

(** Go's signed 64-bit overflow: the result is reduced modulo 2^64 into
    [min_int .. max_int]. *)
Definition wrap (z : Z) : Z := (z + 2 ^ 63) mod 2 ^ 64 - 2 ^ 63.

Definition add (a b : Z) : Z := wrap (a + b).
Definition sub (a b : Z) : Z := wrap (a - b).

End Int64.

(** ** Data *)

(** A channel [chan struct{}] is known by its identity; what the program
    observes of it is whether it has been closed. *)
Definition chan := nat.

(** [type waiter struct { n int64; ready chan<- struct{} }] *)
Record waiter := mkWaiter { n : Z; ready : chan }.

(** [container/list]: an element is a heap cell; [handle] is its address.
    Front of the list is the head. *)
Record Element := mkElement { handle : nat; Value : waiter }.

Definition List := list Element.

Definition Len (l : List) : Z := Z.of_nat (List.length l).

Definition Front (l : List) : option Element :=
  match l with
  | [] => None
  | e :: _ => Some e
  end.

(** [l.PushBack(v)] allocates a new element at address [h]. *)
Definition PushBack (l : List) (h : nat) (v : waiter) : List :=
  l ++ [mkElement h v].

(** [l.Remove(e)]: [if e.list == l { l.remove(e) }].  An element belongs to
    the list that holds its address; otherwise the call changes nothing. *)
Fixpoint Remove (l : List) (e : nat) : List :=
  match l with
  | [] => []
  | x :: r => if Nat.eqb (handle x) e then r else x :: Remove r e
  end.

(** [type Weighted struct { size, cur int64; mu sync.Mutex;
    waiters, impossibleWaiters list.List }].  The mutex is the boundary of
    the functions below. *)
Record Weighted := mkWeighted {
  size : Z;
  cur : Z;
  waiters : List;
  impossibleWaiters : List
}.

Definition set_size (s : Weighted) (v : Z) : Weighted :=
  mkWeighted v (cur s) (waiters s) (impossibleWaiters s).
Definition set_cur (s : Weighted) (v : Z) : Weighted :=
  mkWeighted (size s) v (waiters s) (impossibleWaiters s).
Definition set_waiters (s : Weighted) (l : List) : Weighted :=
  mkWeighted (size s) (cur s) l (impossibleWaiters s).
Definition set_impossibleWaiters (s : Weighted) (l : List) : Weighted :=
  mkWeighted (size s) (cur s) (waiters s) l.

(** Which of the two lists [waiterList] points to. *)
Inductive listRef := RefWaiters | RefImpossible.

Definition getList (s : Weighted) (r : listRef) : List :=
  match r with
  | RefWaiters => waiters s
  | RefImpossible => impossibleWaiters s
  end.

Definition setList (s : Weighted) (r : listRef) (l : List) : Weighted :=
  match r with
  | RefWaiters => set_waiters s l
  | RefImpossible => set_impossibleWaiters s l
  end.

(** A call either returns a value or panics; the panic carries the state in
    which the semaphore is left (the mutex is unlocked before [panic]). *)
Inductive result (A : Type) : Type :=
| Return (a : A)
| Panic (msg : string) (s : Weighted).
Arguments Return {A} a.
Arguments Panic {A} msg s.

(** ** Operations *)

(** [func NewWeighted(n int64) *Weighted] *)
Definition NewWeighted (k : Z) : Weighted := mkWeighted k 0 [] [].

(** The condition [s.size-s.cur >= n && s.waiters.Len() == 0] shared by
    lines 43 and 85. *)
Definition admits (s : Weighted) (k : Z) : bool :=
  (Int64.sub (size s) (cur s) >=? k) && (Len (waiters s) =? 0).

(** [func (s *Weighted) TryAcquire(n int64) bool] *)
Definition TryAcquire (s : Weighted) (k : Z) : Weighted * bool :=
  let success := (Int64.sub (size s) (cur s) >=? k) && (Len (waiters s) =? 0) in
  if success then (set_cur s (Int64.add (cur s) k), true)
  else (s, success).

(** What the first critical section of [Acquire] leaves the caller with:
    it has returned nil, or it is about to block in the [select] holding
    [waiterList], [elem] and [ready]. *)
Inductive acquiring :=
| AcquiredNil
| Waiting (waiterList : listRef) (elem : nat) (rdy : chan).

(** [Acquire], lines 42-59.  [h] is the address of the element allocated by
    [PushBack], [c] the channel made by [make(chan struct{})]. *)
Definition Acquire (s : Weighted) (h : nat) (c : chan) (k : Z)
  : Weighted * acquiring :=
  if (Int64.sub (size s) (cur s) >=? k) && (Len (waiters s) =? 0)
  then (set_cur s (Int64.add (cur s) k), AcquiredNil)
  else
    let waiterList := if k >? size s then RefImpossible else RefWaiters in
    let w := mkWaiter k c in
    (setList s waiterList (PushBack (getList s waiterList) h w),
     Waiting waiterList h c).

(** The two ways the blocked [select] of [Acquire] ends. *)
Inductive verdict := RetNil | RetCtxErr.

(** [Acquire], lines 62-74: [ctx.Done()] was selected.  [is_closed] tells
    whether [ready] has been closed. *)
Definition Acquire_ctxDone (s : Weighted) (is_closed : bool)
    (waiterList : listRef) (elem : nat) : Weighted * verdict :=
  if is_closed then (s, RetNil)
  else (setList s waiterList (Remove (getList s waiterList) elem), RetCtxErr).

(** The loop of [Release], lines 101-126, on [s.size], [s.cur] and
    [s.waiters]; it returns the new [cur], the remaining queue and the
    channels closed, in order.  [s.waiters.Remove(next)] of the front
    element leaves the tail. *)
Fixpoint Release_loop (sz c : Z) (q : List) : Z * List * list chan :=
  match q with
  | [] => (c, [], [])
  | next :: q' =>
      let w := Value next in
      if Int64.sub sz c <? n w then (c, q, [])
      else
        let '(c', q'', cl) := Release_loop sz (Int64.add c (n w)) q' in
        (c', q'', ready w :: cl)
  end.

(** [func (s *Weighted) Release(n int64)]; returns the channels closed. *)
Definition Release (s : Weighted) (k : Z) : result (Weighted * list chan) :=
  let s1 := set_cur s (Int64.sub (cur s) k) in
  if cur s1 <? 0 then Panic "semaphore: bad release" s1
  else
    let '(c', q', cl) := Release_loop (size s1) (cur s1) (waiters s1) in
    Return (mkWeighted (size s1) c' q' (impossibleWaiters s1), cl).

(** First loop of [Resize], lines 140-158: walk [impossibleWaiters]; an
    element whose weight now fits is pushed to the back of [waiters] (a new
    element, at address [fresh]) and removed.  Returns the impossible list
    that is left, the extended wait queue and the next free address. *)
Fixpoint Resize_possible (sz : Z) (imp ws : List) (fresh : nat)
  : List * List * nat :=
  match imp with
  | [] => ([], ws, fresh)
  | element :: rest =>
      let w := Value element in
      if sz <? n w then
        let '(imp', ws', f') := Resize_possible sz rest ws fresh in
        (element :: imp', ws', f')
      else Resize_possible sz rest (PushBack ws fresh w) (S fresh)
  end.

(** Second loop of [Resize], lines 161-178: walk [waiters]; an element whose
    weight exceeds the size is pushed to the back of [impossibleWaiters] and
    removed. *)
Fixpoint Resize_impossible (sz : Z) (ws imp : List) (fresh : nat)
  : List * List * nat :=
  match ws with
  | [] => ([], imp, fresh)
  | element :: rest =>
      let w := Value element in
      if sz >=? n w then
        let '(ws', imp', f') := Resize_impossible sz rest imp fresh in
        (element :: ws', imp', f')
      else Resize_impossible sz rest (PushBack imp fresh w) (S fresh)
  end.

(** Third loop of [Resize], lines 181-199. *)
Fixpoint Resize_loop (sz c : Z) (q : List) : Z * List * list chan :=
  match q with
  | [] => (c, [], [])
  | next :: q' =>
      let w := Value next in
      if Int64.sub sz c <? n w then (c, q, [])
      else
        let '(c', q'', cl) := Resize_loop sz (Int64.add c (n w)) q' in
        (c', q'', ready w :: cl)
  end.

(** [func (s *Weighted) Resize(n int64)]; [fresh] is the next free element
    address; returns the state, the next free address and the channels
    closed. *)
Definition Resize (s : Weighted) (fresh : nat) (k : Z)
  : result (Weighted * nat * list chan) :=
  let s1 := set_size s k in
  if size s1 <? 0 then Panic "semaphore: bad resize" s1
  else
    let '(imp1, ws1, f1) :=
      Resize_possible (size s1) (impossibleWaiters s1) (waiters s1) fresh in
    let '(ws2, imp2, f2) := Resize_impossible (size s1) ws1 imp1 f1 in
    let '(c3, ws3, cl) := Resize_loop (size s1) (cur s1) ws2 in
    Return (mkWeighted (size s1) c3 ws3 imp2, f2, cl).

(** [Current], [Size], [Waiters]. *)
Definition Current (s : Weighted) : Z := cur s.
Definition Size (s : Weighted) : Z := size s.
Definition Waiters (s : Weighted) : Z :=
  Len (waiters s) + Len (impossibleWaiters s).

(** ** Interleavings of calls

    The world outside the semaphore: the allocator of list elements and of
    channels, the channels closed so far (in the order of the [close] calls),
    the [Acquire] calls blocked in their [select], and what the calls that
    left the [select] returned.  A blocked call is known by its [ready]
    channel. *)

Record call := mkCall { c_list : listRef; c_elem : nat; c_ready : chan }.

Record World := mkWorld {
  sem : Weighted;
  nextElem : nat;
  nextChan : nat;
  closed : list chan;
  blocked : list call;
  returned : list (chan * verdict)
}.

Definition is_closed (w : World) (c : chan) : bool :=
  existsb (Nat.eqb c) (closed w).

Definition find_call (w : World) (c : chan) : option call :=
  find (fun k => Nat.eqb (c_ready k) c) (blocked w).

Definition drop_call (w : World) (c : chan) : list call :=
  filter (fun k => negb (Nat.eqb (c_ready k) c)) (blocked w).

(** One atomic step: a whole call of [TryAcquire], [Release] or [Resize],
    the first critical section of an [Acquire], or one of the two exits of
    the [select] of a blocked [Acquire]. *)
Inductive op :=
| OpTryAcquire (k : Z)
| OpAcquire (k : Z)
| OpReady (c : chan)
| OpCtxDone (c : chan)
| OpRelease (k : Z)
| OpResize (k : Z).

Inductive outcome :=
| Ok (w : World)
| Halted (msg : string) (w : World)
| Disabled.

Definition step (w : World) (o : op) : outcome :=
  match o with
  | OpTryAcquire k =>
      Ok (mkWorld (fst (TryAcquire (sem w) k)) (nextElem w) (nextChan w)
            (closed w) (blocked w) (returned w))
  | OpAcquire k =>
      match Acquire (sem w) (nextElem w) (nextChan w) k with
      | (s', AcquiredNil) =>
          Ok (mkWorld s' (nextElem w) (nextChan w)
                (closed w) (blocked w) (returned w))
      | (s', Waiting l e c) =>
          Ok (mkWorld s' (S (nextElem w)) (S (nextChan w))
                (closed w) (blocked w ++ [mkCall l e c]) (returned w))
      end
  | OpReady c =>
      match find_call w c with
      | Some _ =>
          if is_closed w c then
            Ok (mkWorld (sem w) (nextElem w) (nextChan w) (closed w)
                  (drop_call w c) (returned w ++ [(c, RetNil)]))
          else Disabled
      | None => Disabled
      end
  | OpCtxDone c =>
      match find_call w c with
      | Some k =>
          let '(s', v) :=
            Acquire_ctxDone (sem w) (is_closed w c) (c_list k) (c_elem k) in
          Ok (mkWorld s' (nextElem w) (nextChan w) (closed w)
                (drop_call w c) (returned w ++ [(c, v)]))
      | None => Disabled
      end
  | OpRelease k =>
      match Release (sem w) k with
      | Return (s', cl) =>
          Ok (mkWorld s' (nextElem w) (nextChan w) (closed w ++ cl)
                (blocked w) (returned w))
      | Panic msg s' =>
          Halted msg (mkWorld s' (nextElem w) (nextChan w) (closed w)
                        (blocked w) (returned w))
      end
  | OpResize k =>
      match Resize (sem w) (nextElem w) k with
      | Return (s', f, cl) =>
          Ok (mkWorld s' f (nextChan w) (closed w ++ cl)
                (blocked w) (returned w))
      | Panic msg s' =>
          Halted msg (mkWorld s' (nextElem w) (nextChan w) (closed w)
                        (blocked w) (returned w))
      end
  end.

(** A program: the calls in the order in which they take the mutex.  The
    run stops at the first panic. *)
Fixpoint run (w : World) (os : list op) : outcome :=
  match os with
  | [] => Ok w
  | o :: os' =>
      match step w o with
      | Ok w' => run w' os'
      | r => r
      end
  end.

Definition init (k : Z) : World := mkWorld (NewWeighted k) 0 0 [] [] [].

(** ** Reading the loops

    The weights granted by a cascade, described without the loop: each one
    fitted in what was free when its turn came, and [cur] went through the
    additions in order. *)

Fixpoint add_all (c : Z) (g : List) : Z :=
  match g with
  | [] => c
  | e :: g' => add_all (Int64.add c (n (Value e))) g'
  end.

Fixpoint granted_in_turn (sz c : Z) (g : List) : Prop :=
  match g with
  | [] => True
  | e :: g' =>
      n (Value e) <= Int64.sub sz c /\
      granted_in_turn sz (Int64.add c (n (Value e))) g'
  end.

Definition front_blocked (sz c : Z) (rest : List) : Prop :=
  match Front rest with
  | None => True
  | Some e => Int64.sub sz c < n (Value e)
  end.

Definition signals (g : List) : list chan := map (fun e => ready (Value e)) g.

Definition records (l : List) : list waiter := map Value l.

(** Classification of a record against a capacity. *)
Definition fits (sz : Z) (w : waiter) : bool := n w <=? sz.
Definition exceeds (sz : Z) (w : waiter) : bool := sz <? n w.

Definition classified (s : Weighted) : Prop :=
  Forall (fun e => n (Value e) <= size s) (waiters s) /\
  Forall (fun e => size s < n (Value e)) (impossibleWaiters s).

(** The elements that [PushBack] allocates for a run of records, starting
    at address [f]. *)
Fixpoint realloc (f : nat) (ws : list waiter) : List :=
  match ws with
  | [] => []
  | w :: r => mkElement f w :: realloc (S f) r
  end.

(** ** Preconditions of the specification, as checks on a program *)

Definition is_int64 (k : Z) : bool :=
  (Int64.min_int <=? k) && (k <=? Int64.max_int).

(** A weight that is not negative. *)
Definition weight_ok (k : Z) : bool := (0 <=? k) && (k <=? Int64.max_int).

(** Every argument is an int64. *)
Definition typed_op (o : op) : bool :=
  match o with
  | OpTryAcquire k | OpAcquire k | OpRelease k | OpResize k => is_int64 k
  | OpReady _ | OpCtxDone _ => true
  end.

(** Every argument is an int64 and no weight is negative. *)
Definition valid_op (o : op) : bool :=
  match o with
  | OpTryAcquire k | OpAcquire k | OpRelease k => weight_ok k
  | OpResize k => is_int64 k
  | OpReady _ | OpCtxDone _ => true
  end.

(** No [Resize] of the program sets the capacity below what is in use at
    the time of the call. *)
Fixpoint never_shrinks_below_used (w : World) (os : list op) : bool :=
  match os with
  | [] => true
  | o :: os' =>
      match o with
      | OpResize k => cur (sem w) <=? k
      | _ => true
      end &&
      match step w o with
      | Ok w' => never_shrinks_below_used w' os'
      | _ => true
      end
  end.

(** Sum of the weights of a run of elements, in unbounded integers. *)
Definition total (g : List) : Z :=
  fold_right (fun e a => n (Value e) + a) 0 g.

Definition weights_ok (l : List) : Prop :=
  Forall (fun e => 0 <= n (Value e) <= Int64.max_int) l.

(** The states of the specification's data model: capacity and use are not
    negative and every waiting weight is a non-negative int64. *)
Definition sane (s : Weighted) : Prop :=
  0 <= cur s <= Int64.max_int /\
  0 <= size s <= Int64.max_int /\
  weights_ok (waiters s) /\
  weights_ok (impossibleWaiters s).

(** The channels that exist: those already closed and those of the records
    still waiting. *)
Definition channels_of (cl : list chan) (s : Weighted) : list chan :=
  cl ++ map ready (records (waiters s) ++ records (impossibleWaiters s)).

Definition channels (w : World) : list chan := channels_of (closed w) (sem w).

Definition channels_distinct (w : World) : Prop :=
  NoDup (channels w) /\ Forall (fun c => (c < nextChan w)%nat) (channels w).

(** What the allocators have handed out: every element in the two lists
    has an address below [nextElem], every blocked call a channel below
    [nextChan]. *)
Definition allocated (w : World) : Prop :=
  Forall (fun e => (handle e < nextElem w)%nat)
    (waiters (sem w) ++ impossibleWaiters (sem w)) /\
  Forall (fun k => (c_ready k < nextChan w)%nat) (blocked w).

(** Programs that never call [Resize]. *)
Definition is_Resize (o : op) : bool :=
  match o with
  | OpResize _ => true
  | _ => false
  end.

Definition no_Resize (os : list op) : bool :=
  forallb (fun o => negb (is_Resize o)) os.

(** The bookkeeping that holds as long as no record has been moved: every
    element of either list is the element that some blocked call holds,
    in the list that the call captured; blocked calls differ in their
    element and in their channel; and the channel of a call that returned
    the context's error is neither closed nor carried by a waiting
    record. *)
Definition tidy (w : World) : Prop :=
  (forall L x,
      In x (getList (sem w) L) ->
      In (mkCall L (handle x) (ready (Value x))) (blocked w)) /\
  NoDup (map c_elem (blocked w)) /\
  NoDup (map c_ready (blocked w)) /\
  Forall (fun b => (c_elem b < nextElem w)%nat) (blocked w) /\
  Forall (fun p => (fst p < nextChan w)%nat) (returned w) /\
  (forall c, In (c, RetCtxErr) (returned w) -> ~ In c (channels w)).

(** ** A ledger kept by the callers

    What the callers of a program can add up from the arguments and the
    results of their own calls: the weights that [TryAcquire] and the fast
    path of [Acquire] took, the weights given back by [Release], and, for
    every [Acquire] that blocked, the weight it asked for under the channel
    it waits on. *)
Record ledger := mkLedger {
  admitted : Z;
  released : Z;
  asked : list (chan * Z)
}.

Definition weight_of (l : ledger) (c : chan) : Z :=
  match find (fun p => Nat.eqb (fst p) c) (asked l) with
  | Some p => snd p
  | None => 0
  end.

Definition book (w : World) (o : op) (l : ledger) : ledger :=
  match o with
  | OpTryAcquire k =>
      if snd (TryAcquire (sem w) k)
      then mkLedger (admitted l + k) (released l) (asked l)
      else l
  | OpAcquire k =>
      match snd (Acquire (sem w) (nextElem w) (nextChan w) k) with
      | AcquiredNil => mkLedger (admitted l + k) (released l) (asked l)
      | Waiting _ _ c => mkLedger (admitted l) (released l) (asked l ++ [(c, k)])
      end
  | OpRelease k => mkLedger (admitted l) (released l + k) (asked l)
  | OpReady _ | OpCtxDone _ | OpResize _ => l
  end.

Fixpoint audit (w : World) (os : list op) (l : ledger) : ledger :=
  match os with
  | [] => l
  | o :: os' =>
      match step w o with
      | Ok w' => audit w' os' (book w o l)
      | _ => l
      end
  end.

(** The weights asked for by the calls whose channels are in [cl]. *)
Definition granted_weight (l : ledger) (cl : list chan) : Z :=
  fold_right (fun c a => weight_of l c + a) 0 cl.

Definition balanced (w : World) (l : ledger) : Prop :=
  cur (sem w) = admitted l + granted_weight l (closed w) - released l /\
  (forall r,
      In r (records (waiters (sem w)) ++ records (impossibleWaiters (sem w))) ->
      weight_of l (ready r) = n r) /\
  Forall (fun p => (fst p < nextChan w)%nat) (asked l).

(** ** Arithmetic facts *)

Ltac int64_bounds :=
  unfold Int64.in_range, Int64.min_int, Int64.max_int in *.

Lemma wrap_in_range (z : Z) : Int64.in_range z -> Int64.wrap z = z.
Proof.
  unfold Int64.in_range, Int64.wrap, Int64.min_int, Int64.max_int.
  intros H. rewrite Z.mod_small; lia.
Qed.

Lemma wrap_range (z : Z) : Int64.in_range (Int64.wrap z).
Proof.
  unfold Int64.in_range, Int64.wrap, Int64.min_int, Int64.max_int.
  pose proof (Z.mod_pos_bound (z + 2 ^ 63) (2 ^ 64) ltac:(lia)). lia.
Qed.

Lemma sub_exact (a b : Z) :
  Int64.in_range (a - b) -> Int64.sub a b = a - b.
Proof. apply wrap_in_range. Qed.

Lemma add_exact (a b : Z) :
  Int64.in_range (a + b) -> Int64.add a b = a + b.
Proof. apply wrap_in_range. Qed.

(** With a capacity that is not negative, a subtraction that overflows
    yields a negative number: nothing of weight [0] or more is admitted by
    a wrapped difference. *)
Lemma sub_nonneg_exact (sz c : Z) :
  0 <= sz <= Int64.max_int -> Int64.in_range c ->
  0 <= Int64.sub sz c -> Int64.sub sz c = sz - c.
Proof.
  unfold Int64.sub, Int64.wrap, Int64.in_range, Int64.min_int, Int64.max_int.
  intros Hs Hc H.
  destruct (Z_le_gt_dec (sz - c) (2 ^ 63 - 1)) as [Hle | Hgt].
  - rewrite Z.mod_small; lia.
  - exfalso.
    replace (sz - c + 2 ^ 63) with ((sz - c - 2 ^ 63) + 1 * 2 ^ 64) in H by lia.
    rewrite Z.mod_add in H by lia.
    rewrite Z.mod_small in H; lia.
Qed.

(** ** Lists *)

Lemma Remove_Front (e : Element) (l : List) : Remove (e :: l) (handle e) = l.
Proof. simpl. now rewrite Nat.eqb_refl. Qed.

Lemma Remove_absent (l : List) (h : nat) :
  ~ In h (map handle l) -> Remove l h = l.
Proof.
  induction l as [| x r IH]; simpl; intros H; [reflexivity |].
  destruct (Nat.eqb_spec (handle x) h) as [E | E].
  - exfalso. apply H. now left.
  - f_equal. apply IH. intros Hin. apply H. now right.
Qed.

Lemma Remove_incl (l : List) (h : nat) (e : Element) :
  In e (Remove l h) -> In e l.
Proof.
  induction l as [| x r IH]; simpl; [tauto |].
  destruct (Nat.eqb (handle x) h); simpl; intuition.
Qed.

Lemma Forall_Remove (P : Element -> Prop) (l : List) (h : nat) :
  Forall P l -> Forall P (Remove l h).
Proof.
  rewrite !Forall_forall. intros H e He. apply H. eapply Remove_incl; eauto.
Qed.

(** ** The cascade *)

Lemma Resize_loop_is_Release_loop (sz c : Z) (q : List) :
  Resize_loop sz c q = Release_loop sz c q.
Proof.
  revert c. induction q as [| e q IH]; intros c; simpl; [reflexivity |].
  destruct (Int64.sub sz c <? n (Value e)); [reflexivity |].
  now rewrite IH.
Qed.

Lemma Release_loop_prefix (sz : Z) (q : List) : forall c,
  exists g rest,
    q = g ++ rest /\
    Release_loop sz c q = (add_all c g, rest, signals g) /\
    granted_in_turn sz c g /\
    front_blocked sz (add_all c g) rest.
Proof.
  induction q as [| e q IH]; intros c.
  - exists [], []. simpl. unfold front_blocked. simpl. tauto.
  - simpl. destruct (Z.ltb_spec (Int64.sub sz c) (n (Value e))) as [Hlt | Hge].
    + exists [], (e :: q). simpl. unfold front_blocked. simpl. tauto.
    + destruct (IH (Int64.add c (n (Value e)))) as (g & rest & Hq & Hl & Hg & Hb).
      exists (e :: g), rest. rewrite Hl. simpl. subst q. tauto.
Qed.

Lemma Release_loop_stops (sz c : Z) (e : Element) (q : List) :
  Int64.sub sz c < n (Value e) ->
  Release_loop sz c (e :: q) = (c, e :: q, []).
Proof.
  intros H. simpl. destruct (Z.ltb_spec (Int64.sub sz c) (n (Value e))); [reflexivity | lia].
Qed.

Lemma Release_loop_grants (sz c : Z) (e : Element) (q : List) :
  n (Value e) <= Int64.sub sz c ->
  Release_loop sz c (e :: q) =
  let '(c', q', cl) :=
    Release_loop sz (Int64.add c (n (Value e))) (Remove (e :: q) (handle e)) in
  (c', q', ready (Value e) :: cl).
Proof.
  intros H. rewrite Remove_Front. simpl.
  destruct (Z.ltb_spec (Int64.sub sz c) (n (Value e))); [lia | reflexivity].
Qed.

(** Within the data model of the specification the arithmetic of the
    cascade is exact. *)
Lemma granted_exact (sz : Z) (g : List) : forall c,
  0 <= sz <= Int64.max_int -> Int64.in_range c -> weights_ok g ->
  granted_in_turn sz c g ->
  add_all c g = c + total g /\ 0 <= total g /\ (g = [] \/ c + total g <= sz).
Proof.
  induction g as [| e g IH]; intros c Hsz Hc Hw Hg; simpl.
  - split; [lia |]. split; [lia | now left].
  - inversion Hw as [| ? ? He Hw']; subst. destruct Hg as [Hfit Hg].
    assert (Hsub : Int64.sub sz c = sz - c)
      by (apply sub_nonneg_exact; try assumption; lia).
    assert (Hadd : Int64.add c (n (Value e)) = c + n (Value e))
      by (apply add_exact; int64_bounds; lia).
    rewrite Hadd in *.
    destruct (IH (c + n (Value e))) as (E & Hpos & Hle); try assumption.
    { int64_bounds; lia. }
    split; [rewrite E; lia |]. split; [lia |]. right.
    destruct Hle as [-> | Hle]; simpl; lia.
Qed.

(** ** The two reclassification loops of [Resize] *)

Lemma records_realloc (l : list waiter) : forall f, records (realloc f l) = l.
Proof.
  induction l as [| w l IH]; intros f; simpl; [reflexivity |].
  f_equal. apply IH.
Qed.

Lemma records_filter (P : waiter -> bool) (l : List) :
  records (filter (fun e => P (Value e)) l) = filter P (records l).
Proof.
  induction l as [| e l IH]; simpl; [reflexivity |].
  destruct (P (Value e)); simpl; now rewrite IH.
Qed.

Lemma records_app (a b : List) : records (a ++ b) = records a ++ records b.
Proof. apply map_app. Qed.

Lemma fits_not_exceeds (sz : Z) (w : waiter) : fits sz w = negb (exceeds sz w).
Proof. unfold fits, exceeds. apply Z.leb_antisym. Qed.

Lemma Resize_possible_spec (sz : Z) (imp : List) : forall ws f,
  Resize_possible sz imp ws f =
  (filter (fun e => exceeds sz (Value e)) imp,
   ws ++ realloc f (filter (fits sz) (records imp)),
   (f + List.length (filter (fits sz) (records imp)))%nat).
Proof.
  induction imp as [| e imp IH]; intros ws f; simpl.
  - now rewrite app_nil_r, Nat.add_0_r.
  - assert (E : fits sz (Value e) = negb (sz <? n (Value e)))
      by apply Z.leb_antisym.
    change (exceeds sz (Value e)) with (sz <? n (Value e)). rewrite E.
    destruct (sz <? n (Value e)); simpl.
    + now rewrite IH.
    + rewrite IH. unfold PushBack. rewrite <- app_assoc. simpl.
      now rewrite Nat.add_succ_r.
Qed.

Lemma Resize_impossible_spec (sz : Z) (ws : List) : forall imp f,
  Resize_impossible sz ws imp f =
  (filter (fun e => fits sz (Value e)) ws,
   imp ++ realloc f (filter (exceeds sz) (records ws)),
   (f + List.length (filter (exceeds sz) (records ws)))%nat).
Proof.
  induction ws as [| e ws IH]; intros imp f; simpl.
  - now rewrite app_nil_r, Nat.add_0_r.
  - rewrite Z.geb_leb. fold (fits sz (Value e)).
    rewrite (fits_not_exceeds sz (Value e)).
    destruct (exceeds sz (Value e)); simpl.
    + rewrite IH. unfold PushBack. rewrite <- app_assoc. simpl.
      now rewrite Nat.add_succ_r.
    + now rewrite IH.
Qed.

Lemma filter_fits_realloc (sz : Z) (l : list waiter) : forall f,
  filter (fun e => fits sz (Value e)) (realloc f (filter (fits sz) l)) =
  realloc f (filter (fits sz) l).
Proof.
  induction l as [| w l IH]; intros f; simpl; [reflexivity |].
  destruct (fits sz w) eqn:E; simpl; [| apply IH].
  rewrite E. f_equal. apply IH.
Qed.

Lemma filter_exceeds_fits (sz : Z) (l : list waiter) :
  filter (exceeds sz) (filter (fits sz) l) = [].
Proof.
  induction l as [| w l IH]; simpl; [reflexivity |].
  destruct (fits sz w) eqn:E; simpl; [| exact IH].
  rewrite fits_not_exceeds in E. apply negb_true_iff in E. now rewrite E.
Qed.

(** The queue on which the third loop of [Resize] runs, and the impossible
    list it leaves. *)
Lemma Resize_returns (s : Weighted) (fresh : nat) (k : Z) :
  0 <= k ->
  exists f',
    Resize s fresh k =
    let q := filter (fun e => fits k (Value e)) (waiters s) ++
             realloc fresh (filter (fits k) (records (impossibleWaiters s))) in
    let imp := filter (fun e => exceeds k (Value e)) (impossibleWaiters s) ++
               realloc (fresh + List.length (filter (fits k) (records (impossibleWaiters s))))%nat
                 (filter (exceeds k) (records (waiters s))) in
    let '(c', q', cl) := Release_loop k (cur s) q in
    Return (mkWeighted k c' q' imp, f', cl).
Proof.
  intros Hk. unfold Resize. simpl.
  destruct (Z.ltb_spec k 0) as [? | _]; [lia |].
  rewrite Resize_possible_spec, Resize_impossible_spec.
  rewrite filter_app, filter_fits_realloc.
  rewrite records_app, records_realloc, filter_app, filter_exceeds_fits, app_nil_r.
  rewrite Resize_loop_is_Release_loop.
  eexists. simpl. reflexivity.
Qed.

(** ** Admission *)

Lemma admits_iff (s : Weighted) (k : Z) :
  admits s k = true <-> waiters s = [] /\ k <= Int64.sub (size s) (cur s).
Proof.
  unfold admits, Len. rewrite andb_true_iff, Z.geb_le, Z.eqb_eq.
  destruct (waiters s); simpl; split; intros [H1 H2]; split;
    try assumption; try reflexivity; try lia; discriminate.
Qed.

(** C3. [TryAcquire] and the fast path of [Acquire] test the same condition:
    the wait queue is empty and [size - cur >= n] (int64 subtraction).  When
    it holds both add [n] to [cur] and succeed; when it fails [TryAcquire]
    returns false and the semaphore is the one it was given (so no waiter is
    enqueued), while [Acquire] enqueues a waiter and blocks.  With [cur] and
    [size] not negative the difference is the exact one, and so is the sum
    for an admitted weight that is not negative. *)
Theorem admission_predicate_shared (s : Weighted) (h : nat) (c : chan) (k : Z) :
  (admits s k = true <->
   waiters s = [] /\ k <= Int64.sub (size s) (cur s)) /\
  TryAcquire s k =
    (if admits s k then (set_cur s (Int64.add (cur s) k), true)
     else (s, false)) /\
  (if admits s k
   then Acquire s h c k = (set_cur s (Int64.add (cur s) k), AcquiredNil)
   else exists l, snd (Acquire s h c k) = Waiting l h c) /\
  waiters (fst (TryAcquire s k)) = waiters s /\
  impossibleWaiters (fst (TryAcquire s k)) = impossibleWaiters s /\
  (0 <= cur s <= Int64.max_int -> 0 <= size s <= Int64.max_int ->
   Int64.sub (size s) (cur s) = size s - cur s /\
   (0 <= k -> admits s k = true -> Int64.add (cur s) k = cur s + k)).
Proof.
  split; [apply admits_iff |].
  assert (Hex : 0 <= cur s <= Int64.max_int -> 0 <= size s <= Int64.max_int ->
                Int64.sub (size s) (cur s) = size s - cur s /\
                (0 <= k -> admits s k = true ->
                 Int64.add (cur s) k = cur s + k)).
  { intros Hc Hs.
    assert (E : Int64.sub (size s) (cur s) = size s - cur s)
      by (apply sub_exact; int64_bounds; lia).
    split; [exact E |]. intros Hk Ha. apply admits_iff in Ha.
    apply add_exact. int64_bounds. lia. }
  unfold TryAcquire, Acquire. fold (admits s k).
  destruct (admits s k); simpl; repeat split; eauto; now apply Hex.
Qed.

(** ** Release *)

Lemma Release_panics (s : Weighted) (k : Z) :
  Int64.sub (cur s) k < 0 ->
  Release s k =
  Panic "semaphore: bad release" (set_cur s (Int64.sub (cur s) k)).
Proof.
  intros H. unfold Release. simpl.
  destruct (Z.ltb_spec (Int64.sub (cur s) k) 0); [reflexivity | lia].
Qed.

Lemma Release_returns (s : Weighted) (k : Z) :
  0 <= Int64.sub (cur s) k ->
  Release s k =
  let '(c', q', cl) :=
    Release_loop (size s) (Int64.sub (cur s) k) (waiters s) in
  Return (mkWeighted (size s) c' q' (impossibleWaiters s), cl).
Proof.
  intros H. unfold Release. simpl.
  destruct (Z.ltb_spec (Int64.sub (cur s) k) 0); [lia | reflexivity].
Qed.

Lemma Resize_panics (s : Weighted) (fresh : nat) (k : Z) :
  k < 0 -> Resize s fresh k = Panic "semaphore: bad resize" (set_size s k).
Proof.
  intros H. unfold Resize. simpl.
  destruct (Z.ltb_spec k 0); [reflexivity | lia].
Qed.

(** C5. [Release(n)] subtracts [n] from [cur] (int64).  If the result is
    negative the call panics and no waiter is woken; otherwise it runs the
    wake cascade from the decreased [cur]: a prefix [g] of the wait queue is
    granted in turn and the rest stays.  For a weight and a [cur] that are
    not negative the int64 subtraction is the exact difference. *)
Theorem Release_halts_or_cascades (s : Weighted) (k : Z) :
  (Int64.sub (cur s) k < 0 ->
   exists s', Release s k = Panic "semaphore: bad release" s') /\
  (0 <= Int64.sub (cur s) k ->
   exists g rest,
     waiters s = g ++ rest /\
     Release s k =
       Return (mkWeighted (size s) (add_all (Int64.sub (cur s) k) g) rest
                 (impossibleWaiters s), signals g) /\
     granted_in_turn (size s) (Int64.sub (cur s) k) g /\
     front_blocked (size s) (add_all (Int64.sub (cur s) k) g) rest) /\
  (0 <= cur s <= Int64.max_int -> 0 <= k <= Int64.max_int ->
   Int64.sub (cur s) k = cur s - k).
Proof.
  split; [| split].
  - intros H. eexists. now apply Release_panics.
  - intros H.
    destruct (Release_loop_prefix (size s) (waiters s) (Int64.sub (cur s) k))
      as (g & rest & Hq & Hl & Hg & Hb).
    exists g, rest. rewrite Release_returns by assumption. rewrite Hl. tauto.
  - intros Hc Hk. apply sub_exact.
    unfold Int64.in_range, Int64.min_int, Int64.max_int in *. lia.
Qed.

Lemma Release_halts_or_cascades_witness :
  (exists s', Release (NewWeighted 2) 1 = Panic "semaphore: bad release" s') /\
  (exists g rest,
      waiters (mkWeighted 2 2 [mkElement 0 (mkWaiter 1 0%nat)] []) = g ++ rest /\
      Release (mkWeighted 2 2 [mkElement 0 (mkWaiter 1 0%nat)] []) 1 =
        Return (mkWeighted 2 (add_all (Int64.sub 2 1) g) rest [], signals g) /\
      granted_in_turn 2 (Int64.sub 2 1) g /\
      front_blocked 2 (add_all (Int64.sub 2 1) g) rest) /\
  Int64.sub (cur (mkWeighted 2 2 [] [])) 1 = 2 - 1.
Proof.
  split; [| split].
  - apply (proj1 (Release_halts_or_cascades (NewWeighted 2) 1)).
    vm_compute. reflexivity.
  - apply (proj1 (proj2 (Release_halts_or_cascades
                           (mkWeighted 2 2 [mkElement 0 (mkWaiter 1 0%nat)] [])
                           1))).
    vm_compute. discriminate.
  - apply (proj2 (proj2 (Release_halts_or_cascades (mkWeighted 2 2 [] []) 1)));
      vm_compute; split; discriminate.
Defined.

(** C9. The two panics come after the write: when [Release(n)] panics,
    [cur] already holds the decreased (negative) value; when [Resize(n)]
    panics, [size] already holds the negative [n].  A caller that recovers
    the panic finds that state, not the one before the call. *)
Theorem panics_leave_the_write (s : Weighted) (fresh : nat) (k1 k2 : Z) :
  Int64.sub (cur s) k1 < 0 -> k2 < 0 ->
  Release s k1 =
    Panic "semaphore: bad release" (set_cur s (Int64.sub (cur s) k1)) /\
  Resize s fresh k2 = Panic "semaphore: bad resize" (set_size s k2) /\
  (0 <= cur s -> set_cur s (Int64.sub (cur s) k1) <> s) /\
  (0 <= size s -> set_size s k2 <> s).
Proof.
  intros H1 H2. split; [now apply Release_panics |].
  split; [now apply Resize_panics |].
  split; intros H E.
  - apply (f_equal cur) in E. simpl in E. lia.
  - apply (f_equal size) in E. simpl in E. lia.
Qed.

Lemma panics_leave_the_write_witness :
  Release (mkWeighted 3 1 [] []) 2 =
    Panic "semaphore: bad release" (mkWeighted 3 (-1) [] []) /\
  Resize (mkWeighted 3 1 [] []) 0 (-4) =
    Panic "semaphore: bad resize" (mkWeighted (-4) 1 [] []).
Proof.
  pose proof (panics_leave_the_write (mkWeighted 3 1 [] []) 0 2 (-4)
                ltac:(vm_compute; reflexivity) ltac:(lia)) as (H1 & H2 & _).
  split; [exact H1 | exact H2].
Defined.

(** ** NewWeighted *)

(** C6. [NewWeighted] stores its argument without looking at it: with a
    negative capacity it returns a semaphore whose [size] is negative, and
    the calls that follow run on it ([TryAcquire(1)] fails, [Acquire(1)]
    blocks in the impossible list); [Resize] with the same argument
    panics. *)
Theorem NewWeighted_accepts_negative :
  NewWeighted (-1) = mkWeighted (-1) 0 [] [] /\
  Size (NewWeighted (-1)) = -1 /\
  (forall k, Size (NewWeighted k) = k) /\
  run (init (-1)) [OpTryAcquire 1; OpAcquire 1] =
    Ok (mkWorld (mkWeighted (-1) 0 [] [mkElement 0 (mkWaiter 1 0%nat)])
          1 1 [] [mkCall RefImpossible 0 0%nat] []) /\
  Resize (NewWeighted 0) 0 (-1) =
    Panic "semaphore: bad resize" (mkWeighted (-1) 0 [] []).
Proof. repeat split. Qed.

(** ** The wake cascade *)

Lemma Release_uses_loop (s : Weighted) (k : Z) (s' : Weighted) (cl : list chan) :
  Release s k = Return (s', cl) ->
  (cur s', waiters s', cl) =
    Release_loop (size s) (Int64.sub (cur s) k) (waiters s) /\
  size s' = size s /\ impossibleWaiters s' = impossibleWaiters s.
Proof.
  unfold Release. simpl.
  destruct (Int64.sub (cur s) k <? 0); [discriminate |].
  destruct (Release_loop (size s) (Int64.sub (cur s) k) (waiters s))
    as [[c' q'] cl'].
  intros E. inversion E; subst. simpl. auto.
Qed.

Lemma Resize_uses_loop (s : Weighted) (f : nat) (k : Z)
    (s' : Weighted) (f' : nat) (cl : list chan) :
  Resize s f k = Return (s', f', cl) ->
  0 <= k /\
  exists q,
    records q = filter (fits k) (records (waiters s)) ++
                filter (fits k) (records (impossibleWaiters s)) /\
    (cur s', waiters s', cl) = Resize_loop k (cur s) q /\
    records (impossibleWaiters s') =
      filter (exceeds k) (records (impossibleWaiters s)) ++
      filter (exceeds k) (records (waiters s)) /\
    size s' = k.
Proof.
  intros E.
  destruct (Z.lt_ge_cases k 0) as [Hneg | Hk].
  - rewrite Resize_panics in E by assumption. discriminate.
  - split; [assumption |].
    destruct (Resize_returns s f k Hk) as (f2 & E2).
    rewrite E2 in E. cbv zeta in E.
    exists (filter (fun e => fits k (Value e)) (waiters s) ++
            realloc f (filter (fits k) (records (impossibleWaiters s)))).
    split; [| rewrite Resize_loop_is_Release_loop].
    + rewrite records_app, records_filter, records_realloc. reflexivity.
    + destruct (Release_loop k (cur s) _) as [[c' q'] cl'].
      inversion E; subst. simpl.
      rewrite records_app, records_filter, records_realloc. auto.
Qed.

Lemma Release_cascades (s : Weighted) (k : Z) :
  0 <= Int64.sub (cur s) k ->
  exists g rest,
    waiters s = g ++ rest /\
    Release s k =
      Return (mkWeighted (size s) (add_all (Int64.sub (cur s) k) g) rest
                (impossibleWaiters s), signals g) /\
    granted_in_turn (size s) (Int64.sub (cur s) k) g /\
    front_blocked (size s) (add_all (Int64.sub (cur s) k) g) rest.
Proof.
  intros H.
  destruct (Release_loop_prefix (size s) (waiters s) (Int64.sub (cur s) k))
    as (g & rest & Hq & Hl & Hg & Hb).
  exists g, rest. rewrite Release_returns by assumption. rewrite Hl. tauto.
Qed.

Lemma Resize_cascades (s : Weighted) (f : nat) (k : Z) :
  0 <= k ->
  exists q g rest imp f',
    records q = filter (fits k) (records (waiters s)) ++
                filter (fits k) (records (impossibleWaiters s)) /\
    q = g ++ rest /\
    records imp = filter (exceeds k) (records (impossibleWaiters s)) ++
                  filter (exceeds k) (records (waiters s)) /\
    Resize s f k =
      Return (mkWeighted k (add_all (cur s) g) rest imp, f', signals g) /\
    granted_in_turn k (cur s) g /\
    front_blocked k (add_all (cur s) g) rest.
Proof.
  intros Hk. destruct (Resize_returns s f k Hk) as (f' & E). cbv zeta in E.
  match type of E with
  | context [Release_loop k (cur s) ?q0] =>
      destruct (Release_loop_prefix k q0 (cur s))
        as (g & rest & Hq & Hl & Hg & Hb);
      rewrite Hl in E; exists q0, g, rest
  end.
  eexists _, f'. split; [| split; [exact Hq | split; [| split; [exact E |]]]].
  - now rewrite records_app, records_filter, records_realloc.
  - now rewrite records_app, records_filter, records_realloc.
  - tauto.
Qed.

(** C2. The loop that ends [Release] grants a prefix [g] of the wait queue
    and nothing else: every record of [g] fitted in [size - cur] when its
    turn came, [cur] grew by each weight, each [ready] channel is closed
    once, in queue order, and what stays in the queue is the untouched rest,
    whose front (if any) does not fit.  A front that does not fit stops the
    loop at once, whatever is behind it.  The last loop of [Resize] is the
    same function, run on the reclassified queue.  With a capacity and
    weights that are not negative no addition or subtraction of the loop
    overflows: [cur] grows by the sum of the granted weights and, if
    anything was granted, ends at most at [size].  [Release(n)], whenever
    [cur - n] is not negative, returns the state that this loop leaves from
    the decreased [cur]: the granted prefix is out of the queue, its
    channels are the ones closed, the rest is still queued.  [Resize(k)],
    whenever [k] is not negative, returns the state that the loop leaves on
    the reclassified queue at capacity [k].  In the second scenario of the
    specification the waiter of weight 1 stays blocked behind the waiter of
    weight 2 although one unit is free; a [Release(2)] there wakes the
    waiter of weight 2 and leaves the other queued; and the [Resize(10)] of
    the third scenario wakes the waiter of weight 5. *)
Theorem wake_cascade_front_only :
  (forall sz c q, exists g rest,
      q = g ++ rest /\
      Release_loop sz c q = (add_all c g, rest, signals g) /\
      granted_in_turn sz c g /\
      front_blocked sz (add_all c g) rest) /\
  (forall sz c e q,
      Int64.sub sz c < n (Value e) ->
      Release_loop sz c (e :: q) = (c, e :: q, [])) /\
  (forall sz c e q,
      n (Value e) <= Int64.sub sz c ->
      Release_loop sz c (e :: q) =
      let '(c', q', cl) :=
        Release_loop sz (Int64.add c (n (Value e)))
          (Remove (e :: q) (handle e)) in
      (c', q', ready (Value e) :: cl)) /\
  (forall sz c q, Resize_loop sz c q = Release_loop sz c q) /\
  (forall sz c g,
      0 <= sz <= Int64.max_int -> Int64.in_range c -> weights_ok g ->
      granted_in_turn sz c g ->
      add_all c g = c + total g /\ 0 <= total g /\
      (g = [] \/ c + total g <= sz)) /\
  (forall s k s' cl,
      Release s k = Return (s', cl) ->
      (cur s', waiters s', cl) =
        Release_loop (size s) (Int64.sub (cur s) k) (waiters s)) /\
  (forall s f k s' f' cl,
      Resize s f k = Return (s', f', cl) ->
      exists q,
        records q = filter (fits k) (records (waiters s)) ++
                    filter (fits k) (records (impossibleWaiters s)) /\
        (cur s', waiters s', cl) = Resize_loop k (cur s) q) /\
  (forall s k,
      0 <= Int64.sub (cur s) k ->
      exists g rest,
        waiters s = g ++ rest /\
        Release s k =
          Return (mkWeighted (size s) (add_all (Int64.sub (cur s) k) g) rest
                    (impossibleWaiters s), signals g) /\
        granted_in_turn (size s) (Int64.sub (cur s) k) g /\
        front_blocked (size s) (add_all (Int64.sub (cur s) k) g) rest) /\
  (forall s f k,
      0 <= k ->
      exists q g rest imp f',
        records q = filter (fits k) (records (waiters s)) ++
                    filter (fits k) (records (impossibleWaiters s)) /\
        q = g ++ rest /\
        records imp = filter (exceeds k) (records (impossibleWaiters s)) ++
                      filter (exceeds k) (records (waiters s)) /\
        Resize s f k =
          Return (mkWeighted k (add_all (cur s) g) rest imp, f', signals g) /\
        granted_in_turn k (cur s) g /\
        front_blocked k (add_all (cur s) g) rest) /\
  run (init 2) [OpTryAcquire 2; OpAcquire 2; OpAcquire 1; OpRelease 1] =
    Ok (mkWorld
          (mkWeighted 2 1
             [mkElement 0 (mkWaiter 2 0%nat); mkElement 1 (mkWaiter 1 1%nat)]
             [])
          2 2 []
          [mkCall RefWaiters 0 0%nat; mkCall RefWaiters 1 1%nat] []) /\
  run (init 2) [OpTryAcquire 2; OpAcquire 2; OpAcquire 1; OpRelease 2] =
    Ok (mkWorld
          (mkWeighted 2 2 [mkElement 1 (mkWaiter 1 1%nat)] [])
          2 2 [0%nat]
          [mkCall RefWaiters 0 0%nat; mkCall RefWaiters 1 1%nat] []) /\
  run (init 1) [OpAcquire 5; OpResize 10] =
    Ok (mkWorld (mkWeighted 10 5 [] []) 2 1 [0%nat]
          [mkCall RefImpossible 0 0%nat] []).
Proof.
  split; [intros; apply Release_loop_prefix |].
  split; [intros; now apply Release_loop_stops |].
  split; [intros; now apply Release_loop_grants |].
  split; [intros; apply Resize_loop_is_Release_loop |].
  split; [intros; now apply granted_exact |].
  split; [intros s k s' cl E; now apply Release_uses_loop in E |].
  split.
  { intros s f k s' f' cl E. apply Resize_uses_loop in E.
    destruct E as (_ & q & Hq & Hl & _). eauto. }
  split; [intros; now apply Release_cascades |].
  split; [intros; now apply Resize_cascades |].
  repeat split.
Qed.

Lemma wake_cascade_front_only_witness :
  (exists g rest,
      [mkElement 0 (mkWaiter 2 0%nat); mkElement 1 (mkWaiter 1 1%nat)] =
        g ++ rest /\
      signals g = [0%nat] /\
      rest = [mkElement 1 (mkWaiter 1 1%nat)] /\
      Release
        (mkWeighted 2 2
           [mkElement 0 (mkWaiter 2 0%nat); mkElement 1 (mkWaiter 1 1%nat)] [])
        2 =
        Return (mkWeighted 2 2 rest [], signals g) /\
      granted_in_turn 2 (Int64.sub 2 2) g /\
      front_blocked 2 (add_all (Int64.sub 2 2) g) rest) /\
  (exists q g rest,
      records q = [mkWaiter 5 0%nat] /\
      q = g ++ rest /\
      signals g = [0%nat] /\
      rest = [] /\
      Resize (mkWeighted 1 0 [] [mkElement 0 (mkWaiter 5 0%nat)]) 1 10 =
        Return (mkWeighted 10 5 rest [], 2%nat, signals g) /\
      granted_in_turn 10 0 g).
Proof.
  destruct wake_cascade_front_only
    as (_ & _ & _ & _ & _ & _ & _ & HRelease & HResize & _).
  split.
  - destruct (HRelease
                (mkWeighted 2 2
                   [mkElement 0 (mkWaiter 2 0%nat);
                    mkElement 1 (mkWaiter 1 1%nat)] []) 2)
      as (g & rest & Hq & E & Hg & Hb).
    { vm_compute. discriminate. }
    assert (E0 : Release
                   (mkWeighted 2 2
                      [mkElement 0 (mkWaiter 2 0%nat);
                       mkElement 1 (mkWaiter 1 1%nat)] []) 2 =
                 Return (mkWeighted 2 2 [mkElement 1 (mkWaiter 1 1%nat)] [],
                         [0%nat])) by reflexivity.
    rewrite E0 in E. simpl in E. inversion E as [[Ec Er Es]].
    exists g, rest. rewrite <- Er, <- Es. simpl in Hq. rewrite <- Er in Hq.
    repeat split; try assumption; try reflexivity.
    now rewrite Er.
  - destruct (HResize (mkWeighted 1 0 [] [mkElement 0 (mkWaiter 5 0%nat)])
                1%nat 10)
      as (q & g & rest & imp & f' & Hr & Hq & Hi & E & Hg & Hb).
    { lia. }
    assert (E0 : Resize (mkWeighted 1 0 [] [mkElement 0 (mkWaiter 5 0%nat)])
                   1 10 =
                 Return (mkWeighted 10 5 [] [], 2%nat, [0%nat]))
      by reflexivity.
    rewrite E0 in E. simpl in E. inversion E as [[Ec Er Ei Ef Es]].
    exists q, g, rest. rewrite <- Er, <- Es. rewrite <- Er in Hq.
    repeat split; try assumption; reflexivity.
Defined.

(** ** Classification of the waiting records *)

Lemma Forall_records (P : waiter -> Prop) (l : List) :
  Forall (fun e => P (Value e)) l <-> Forall P (records l).
Proof. unfold records. now rewrite Forall_map. Qed.

Lemma Forall_filter_true (P : waiter -> bool) (l : list waiter) :
  Forall (fun w => P w = true) (filter P l).
Proof.
  apply Forall_forall. intros w Hw. now apply filter_In in Hw.
Qed.

Lemma classified_NewWeighted (k : Z) : classified (NewWeighted k).
Proof. split; constructor. Qed.

Lemma Acquire_slow_path (s : Weighted) (h : nat) (c : chan) (k : Z) :
  admits s k = false ->
  Acquire s h c k =
  if k >? size s
  then (set_impossibleWaiters s
          (impossibleWaiters s ++ [mkElement h (mkWaiter k c)]),
        Waiting RefImpossible h c)
  else (set_waiters s (waiters s ++ [mkElement h (mkWaiter k c)]),
        Waiting RefWaiters h c).
Proof.
  intros H. unfold Acquire. fold (admits s k). rewrite H.
  destruct (k >? size s); reflexivity.
Qed.

Lemma classified_TryAcquire (s : Weighted) (k : Z) :
  classified s -> classified (fst (TryAcquire s k)).
Proof.
  unfold TryAcquire. destruct (_ && _); simpl; unfold classified; simpl; auto.
Qed.

Lemma classified_Acquire (s : Weighted) (h : nat) (c : chan) (k : Z) :
  classified s -> classified (fst (Acquire s h c k)).
Proof.
  intros [Hw Hi]. destruct (admits s k) eqn:E.
  - unfold Acquire. fold (admits s k). rewrite E. split; assumption.
  - rewrite Acquire_slow_path by assumption.
    destruct (Z.gtb_spec k (size s)); split; simpl; try assumption;
      apply Forall_app; split; try assumption;
      constructor; simpl; try lia; constructor.
Qed.

Lemma classified_ctxDone (s : Weighted) (b : bool) (l : listRef) (e : nat) :
  classified s -> classified (fst (Acquire_ctxDone s b l e)).
Proof.
  intros [Hw Hi]. unfold Acquire_ctxDone.
  destruct b; [split; assumption |].
  destruct l; split; simpl; try assumption; now apply Forall_Remove.
Qed.

Lemma classified_Release (s : Weighted) (k : Z) (s' : Weighted) (cl : list chan) :
  classified s -> Release s k = Return (s', cl) -> classified s'.
Proof.
  intros [Hw Hi] E. apply Release_uses_loop in E. destruct E as (El & Es & Ei).
  destruct (Release_loop_prefix (size s) (waiters s) (Int64.sub (cur s) k))
    as (g & rest & Hq & Hl & _).
  rewrite Hl in El. inversion El; subst.
  unfold classified. rewrite Es, Ei. split; [| assumption].
  rewrite Hq in Hw. apply Forall_app in Hw. tauto.
Qed.

(** What [Resize(k)] does to the records, for [k >= 0]. *)
Lemma Resize_effect (s : Weighted) (f : nat) (k : Z) :
  0 <= k ->
  exists s' f' g,
    Resize s f k = Return (s', f', signals g) /\
    size s' = k /\
    records (impossibleWaiters s') =
      filter (exceeds k) (records (impossibleWaiters s)) ++
      filter (exceeds k) (records (waiters s)) /\
    records g ++ records (waiters s') =
      filter (fits k) (records (waiters s)) ++
      filter (fits k) (records (impossibleWaiters s)) /\
    classified s' /\
    cur s' = add_all (cur s) g /\
    granted_in_turn k (cur s) g.
Proof.
  intros Hk. destruct (Resize_returns s f k Hk) as (f' & E).
  cbv zeta in E.
  set (q := filter (fun e => fits k (Value e)) (waiters s) ++
            realloc f (filter (fits k) (records (impossibleWaiters s)))) in *.
  assert (Hrq : records q =
                filter (fits k) (records (waiters s)) ++
                filter (fits k) (records (impossibleWaiters s))).
  { unfold q. now rewrite records_app, records_filter, records_realloc. }
  destruct (Release_loop_prefix k q (cur s)) as (g & rest & Hq & Hl & Hg & _).
  rewrite Hl in E.
  eexists _, f', g. split; [exact E |]. simpl.
  assert (Hri : records
                  (filter (fun e => exceeds k (Value e)) (impossibleWaiters s) ++
                   realloc (f + List.length (filter (fits k) (records (impossibleWaiters s))))%nat
                     (filter (exceeds k) (records (waiters s)))) =
                filter (exceeds k) (records (impossibleWaiters s)) ++
                filter (exceeds k) (records (waiters s))).
  { now rewrite records_app, records_filter, records_realloc. }
  split; [reflexivity |]. split; [exact Hri |].
  split; [now rewrite <- records_app, <- Hq |].
  split; [| split; [reflexivity | exact Hg]].
  split; simpl.
  - apply (Forall_records (fun w => n w <= k)).
    assert (Hall : Forall (fun w => n w <= k) (records q)).
    { rewrite Hrq. apply Forall_app; split;
        (eapply Forall_impl; [| apply Forall_filter_true]);
        intros w Hw; unfold fits in Hw; lia. }
    rewrite Hq, records_app in Hall. apply Forall_app in Hall. tauto.
  - apply (Forall_records (fun w => k < n w)). rewrite Hri.
    apply Forall_app; split;
      (eapply Forall_impl; [| apply Forall_filter_true]);
      intros w Hw; unfold exceeds in Hw; lia.
Qed.

Lemma classified_Resize (s : Weighted) (f : nat) (k : Z)
    (s' : Weighted) (f' : nat) (cl : list chan) :
  Resize s f k = Return (s', f', cl) -> classified s'.
Proof.
  intros E.
  destruct (Z.lt_ge_cases k 0) as [Hneg | Hk].
  - rewrite Resize_panics in E by assumption. discriminate.
  - destruct (Resize_effect s f k Hk) as (s2 & f2 & g & E2 & _ & _ & _ & Hc & _).
    rewrite E2 in E. now inversion E; subst.
Qed.

Lemma classified_step (w w' : World) (o : op) :
  classified (sem w) -> step w o = Ok w' -> classified (sem w').
Proof.
  intros Hc. destruct o as [k | k | c | c | k | k]; simpl.
  - intros E. inversion E; subst. simpl. now apply classified_TryAcquire.
  - pose proof (classified_Acquire (sem w) (nextElem w) (nextChan w) k Hc) as H.
    destruct (Acquire (sem w) (nextElem w) (nextChan w) k) as [s' [| l e c]];
      intros E; inversion E; subst; exact H.
  - destruct (find_call w c); [| discriminate].
    destruct (is_closed w c); [| discriminate].
    intros E. inversion E; subst. exact Hc.
  - destruct (find_call w c) as [cl |]; [| discriminate].
    pose proof (classified_ctxDone (sem w) (is_closed w c) (c_list cl) (c_elem cl) Hc) as H.
    destruct (Acquire_ctxDone (sem w) (is_closed w c) (c_list cl) (c_elem cl)) as [s' v].
    intros E. inversion E; subst. exact H.
  - destruct (Release (sem w) k) as [[s' cl] |] eqn:ER; [| discriminate].
    intros E. inversion E; subst. simpl. eapply classified_Release; eauto.
  - destruct (Resize (sem w) (nextElem w) k) as [[[s' f'] cl] |] eqn:ER; [| discriminate].
    intros E. inversion E; subst. simpl. eapply classified_Resize; eauto.
Qed.

Lemma classified_run (os : list op) : forall w w',
  classified (sem w) -> run w os = Ok w' -> classified (sem w').
Proof.
  induction os as [| o os IH]; intros w w' Hc; simpl.
  - intros E. now inversion E; subst.
  - destruct (step w o) as [w1 | |] eqn:Es; try discriminate.
    apply IH. eapply classified_step; eauto.
Qed.

(** C4. A blocked [Acquire] puts its record at the tail of the impossible
    list when its weight exceeds [size], at the tail of the wait queue
    otherwise.  [Resize(k)], [k >= 0], returns and leaves in the impossible
    list exactly the records of weight above [k] (those that were there,
    then those that came from the wait queue, each group in its order), and
    the records of weight at most [k] are the granted prefix [g] followed
    by the new wait queue (those that were queued, then those that came
    from the impossible list, in their order).  In every state reached from
    [NewWeighted] by calls that return, the wait queue holds weights at
    most [size] and the impossible list weights above [size]. *)
Theorem classification_invariant :
  (forall s h c k,
      admits s k = false ->
      Acquire s h c k =
      if k >? size s
      then (set_impossibleWaiters s
              (impossibleWaiters s ++ [mkElement h (mkWaiter k c)]),
            Waiting RefImpossible h c)
      else (set_waiters s (waiters s ++ [mkElement h (mkWaiter k c)]),
            Waiting RefWaiters h c)) /\
  (forall s f k,
      0 <= k ->
      exists s' f' g,
        Resize s f k = Return (s', f', signals g) /\
        size s' = k /\
        records (impossibleWaiters s') =
          filter (exceeds k) (records (impossibleWaiters s)) ++
          filter (exceeds k) (records (waiters s)) /\
        records g ++ records (waiters s') =
          filter (fits k) (records (waiters s)) ++
          filter (fits k) (records (impossibleWaiters s)) /\
        classified s') /\
  (forall k os w, run (init k) os = Ok w -> classified (sem w)).
Proof.
  split; [intros; now apply Acquire_slow_path |].
  split.
  { intros s f k Hk.
    destruct (Resize_effect s f k Hk) as (s' & f' & g & H1 & H2 & H3 & H4 & H5 & _).
    exists s', f', g. tauto. }
  intros k os w E. eapply classified_run; [| exact E].
  apply classified_NewWeighted.
Qed.

Lemma classification_invariant_witness :
  Acquire (mkWeighted 2 2 [] []) 0 0%nat 3 =
    (mkWeighted 2 2 [] [mkElement 0 (mkWaiter 3 0%nat)],
     Waiting RefImpossible 0 0%nat) /\
  (exists s' f' g,
      Resize (mkWeighted 2 2 [] [mkElement 0 (mkWaiter 3 0%nat)]) 1 3 =
        Return (s', f', signals g) /\
      size s' = 3 /\
      records (impossibleWaiters s') = [] /\
      records g ++ records (waiters s') = [mkWaiter 3 0%nat] /\
      classified s') /\
  classified
    (sem (mkWorld
            (mkWeighted 3 2
               [mkElement 2 (mkWaiter 2 2%nat)]
               [mkElement 0 (mkWaiter 5 0%nat); mkElement 3 (mkWaiter 4 1%nat)])
            4 3 []
            [mkCall RefImpossible 0 0%nat; mkCall RefWaiters 1 1%nat;
             mkCall RefWaiters 2 2%nat] [])).
Proof.
  split; [| split].
  - apply (proj1 classification_invariant (mkWeighted 2 2 [] []) 0%nat 0%nat 3).
    reflexivity.
  - apply (proj1 (proj2 classification_invariant)
             (mkWeighted 2 2 [] [mkElement 0 (mkWaiter 3 0%nat)]) 1%nat 3).
    lia.
  - apply (proj2 (proj2 classification_invariant) 4
             [OpAcquire 5; OpTryAcquire 4; OpAcquire 4; OpAcquire 2; OpResize 3;
              OpRelease 2]).
    vm_compute. reflexivity.
Defined.

(** ** Bounds on [cur] *)

Lemma weights_ok_app (a b : List) :
  weights_ok (a ++ b) <-> weights_ok a /\ weights_ok b.
Proof. apply Forall_app. Qed.

Lemma weights_ok_records (l l' : List) :
  incl (records l') (records l) -> weights_ok l -> weights_ok l'.
Proof.
  unfold weights_ok. intros Hi Hl.
  apply (Forall_records (fun w => 0 <= n w <= Int64.max_int)).
  apply (Forall_records (fun w => 0 <= n w <= Int64.max_int)) in Hl.
  rewrite Forall_forall in *. auto.
Qed.

Lemma weight_ok_spec (k : Z) : weight_ok k = true <-> 0 <= k <= Int64.max_int.
Proof. unfold weight_ok. rewrite andb_true_iff, !Z.leb_le. tauto. Qed.

Lemma is_int64_spec (k : Z) : is_int64 k = true <-> Int64.in_range k.
Proof.
  unfold is_int64, Int64.in_range. rewrite andb_true_iff, !Z.leb_le. tauto.
Qed.

Lemma fast_path_exact (s : Weighted) (k : Z) :
  sane s -> 0 <= k <= Int64.max_int -> admits s k = true ->
  Int64.add (cur s) k = cur s + k /\ cur s + k <= size s.
Proof.
  intros (Hc & Hs & _) Hk Ha. apply admits_iff in Ha. destruct Ha as [_ Ha].
  assert (Hsub : Int64.sub (size s) (cur s) = size s - cur s)
    by (apply sub_nonneg_exact; int64_bounds; lia).
  split; [apply add_exact; int64_bounds |]; lia.
Qed.

Lemma sane_TryAcquire (s : Weighted) (k : Z) :
  sane s -> weight_ok k = true ->
  sane (fst (TryAcquire s k)) /\
  (cur s <= size s ->
   cur (fst (TryAcquire s k)) <= size (fst (TryAcquire s k))).
Proof.
  intros Hs Hk. apply weight_ok_spec in Hk.
  unfold TryAcquire. fold (admits s k). destruct (admits s k) eqn:Ha; simpl.
  - destruct (fast_path_exact s k Hs Hk Ha) as [E Hle]. rewrite E.
    destruct Hs as (Hc & Hz & Hw & Hi). unfold sane; simpl.
    repeat split; try assumption; lia.
  - tauto.
Qed.

Lemma sane_Acquire (s : Weighted) (h : nat) (c : chan) (k : Z) :
  sane s -> weight_ok k = true ->
  sane (fst (Acquire s h c k)) /\
  (cur s <= size s ->
   cur (fst (Acquire s h c k)) <= size (fst (Acquire s h c k))).
Proof.
  intros Hs Hk. apply weight_ok_spec in Hk.
  destruct (admits s k) eqn:Ha.
  - unfold Acquire. fold (admits s k). rewrite Ha. simpl.
    destruct (fast_path_exact s k Hs Hk Ha) as [E Hle]. rewrite E.
    destruct Hs as (Hc & Hz & Hw & Hi). unfold sane; simpl.
    repeat split; try assumption; lia.
  - rewrite Acquire_slow_path by assumption.
    destruct Hs as (Hc & Hz & Hw & Hi).
    destruct (k >? size s); unfold sane; simpl;
      (split; [| tauto]); repeat split; try assumption; try lia;
      apply weights_ok_app; split; try assumption;
      constructor; simpl; try lia; constructor.
Qed.

Lemma sane_ctxDone (s : Weighted) (b : bool) (l : listRef) (e : nat) :
  sane s ->
  sane (fst (Acquire_ctxDone s b l e)) /\
  cur (fst (Acquire_ctxDone s b l e)) = cur s /\
  size (fst (Acquire_ctxDone s b l e)) = size s.
Proof.
  intros (Hc & Hz & Hw & Hi). unfold Acquire_ctxDone.
  destruct b; [unfold sane; tauto |].
  destruct l; unfold sane; simpl; repeat split; try assumption; try lia;
    now apply Forall_Remove.
Qed.

Lemma sane_Release (s : Weighted) (k : Z) (s' : Weighted) (cl : list chan) :
  sane s -> weight_ok k = true -> Release s k = Return (s', cl) ->
  sane s' /\ (cur s <= size s -> cur s' <= size s').
Proof.
  intros (Hc & Hz & Hw & Hi) Hk E. apply weight_ok_spec in Hk.
  assert (Hsub : Int64.sub (cur s) k = cur s - k)
    by (apply sub_exact; int64_bounds; lia).
  assert (Hpos : 0 <= cur s - k).
  { destruct (Z.lt_ge_cases (Int64.sub (cur s) k) 0) as [Hneg | Hge]; [| lia].
    rewrite Release_panics in E by assumption. discriminate. }
  apply Release_uses_loop in E. destruct E as (El & Es & Ei).
  destruct (Release_loop_prefix (size s) (waiters s) (Int64.sub (cur s) k))
    as (g & rest & Hq & Hl & Hg & _).
  rewrite Hl, Hsub in *. inversion El as [[Ec Er Ecl]]; clear El.
  rewrite Hq in Hw. apply weights_ok_app in Hw. destruct Hw as [Hwg Hwr].
  destruct (granted_exact (size s) g (cur s - k)) as (Ea & Ht & Hle);
    try assumption.
  { int64_bounds; lia. }
  unfold sane. rewrite Ec, Er, Es, Ei, Ea.
  assert (Hb : cur s - k + total g <= Z.max (cur s - k) (size s)).
  { destruct Hle as [-> | Hle]; simpl; lia. }
  split; [| lia]. repeat split; try assumption; lia.
Qed.

Lemma incl_filter_app (P Q : waiter -> bool) (a b : list waiter) :
  incl (filter P a ++ filter Q b) (a ++ b).
Proof.
  intros x Hx. apply in_app_or in Hx. apply in_or_app.
  destruct Hx as [Hx | Hx]; apply filter_In in Hx; tauto.
Qed.

Lemma sane_Resize (s : Weighted) (f : nat) (k : Z)
    (s' : Weighted) (f' : nat) (cl : list chan) :
  sane s -> is_int64 k = true -> Resize s f k = Return (s', f', cl) ->
  sane s' /\ (cur s <= k -> cur s' <= size s').
Proof.
  intros (Hc & Hz & Hw & Hi) Hk E. apply is_int64_spec in Hk.
  destruct (Z.lt_ge_cases k 0) as [Hneg | Hk0].
  { rewrite Resize_panics in E by assumption. discriminate. }
  destruct (Resize_effect s f k Hk0)
    as (s2 & f2 & g & E2 & Hsz & Himp & Hws & _ & Hcur & Hg).
  rewrite E2 in E. inversion E; subst s2 f2 cl; clear E.
  assert (Hall : weights_ok (waiters s ++ impossibleWaiters s))
    by (apply weights_ok_app; tauto).
  assert (Hwg : weights_ok (g ++ waiters s')).
  { eapply weights_ok_records; [| exact Hall].
    rewrite !records_app, Hws. apply incl_filter_app. }
  assert (Hwi : weights_ok (impossibleWaiters s')).
  { eapply weights_ok_records; [| exact Hall].
    rewrite Himp, records_app.
    intros x Hx. apply in_app_or in Hx. apply in_or_app.
    destruct Hx as [Hx | Hx]; apply filter_In in Hx; tauto. }
  apply weights_ok_app in Hwg. destruct Hwg as [Hwg Hwr].
  destruct (granted_exact k g (cur s)) as (Ea & Ht & Hle); try assumption.
  { int64_bounds; lia. }
  { int64_bounds; lia. }
  unfold sane. rewrite Hcur, Hsz, Ea.
  assert (Hb : cur s + total g <= Z.max (cur s) k).
  { destruct Hle as [-> | Hle]; simpl; lia. }
  split; [| lia]. int64_bounds. repeat split; try assumption; lia.
Qed.

Lemma sane_step (w w' : World) (o : op) :
  sane (sem w) -> valid_op o = true -> step w o = Ok w' ->
  sane (sem w') /\
  (cur (sem w) <= size (sem w) ->
   never_shrinks_below_used w [o] = true ->
   cur (sem w') <= size (sem w')).
Proof.
  intros Hs Hv. destruct o as [k | k | c | c | k | k]; simpl in *.
  - intros E. inversion E; subst. simpl.
    destruct (sane_TryAcquire (sem w) k Hs Hv). tauto.
  - destruct (sane_Acquire (sem w) (nextElem w) (nextChan w) k Hs Hv) as [H1 H2].
    destruct (Acquire (sem w) (nextElem w) (nextChan w) k) as [s' [| l e c]];
      intros E; inversion E; subst; simpl in *; tauto.
  - destruct (find_call w c); [| discriminate].
    destruct (is_closed w c); [| discriminate].
    intros E. inversion E; subst. simpl. tauto.
  - destruct (find_call w c) as [cl |]; [| discriminate].
    destruct (sane_ctxDone (sem w) (is_closed w c) (c_list cl) (c_elem cl) Hs)
      as (H1 & H2 & H3).
    destruct (Acquire_ctxDone (sem w) (is_closed w c) (c_list cl) (c_elem cl))
      as [s' v].
    intros E. inversion E; subst. simpl in *. split; [assumption | lia].
  - destruct (Release (sem w) k) as [[s' cl] |] eqn:ER; [| discriminate].
    intros E. inversion E; subst. simpl.
    destruct (sane_Release (sem w) k s' cl Hs Hv ER). tauto.
  - destruct (Resize (sem w) (nextElem w) k) as [[[s' f'] cl] |] eqn:ER;
      [| discriminate].
    intros E. inversion E; subst. simpl.
    destruct (sane_Resize (sem w) (nextElem w) k s' f' cl Hs Hv ER) as [H1 H2].
    split; [assumption |]. intros _ Hg.
    apply andb_true_iff in Hg. destruct Hg as [Hg _].
    apply Z.leb_le in Hg. auto.
Qed.

Lemma sane_run (os : list op) : forall w w',
  sane (sem w) -> forallb valid_op os = true -> run w os = Ok w' ->
  sane (sem w') /\
  (cur (sem w) <= size (sem w) ->
   never_shrinks_below_used w os = true ->
   cur (sem w') <= size (sem w')).
Proof.
  induction os as [| o os IH]; intros w w' Hs Hv; simpl.
  - intros E. inversion E; subst. tauto.
  - simpl in Hv. apply andb_true_iff in Hv. destruct Hv as [Hv Hvs].
    destruct (step w o) as [w1 | |] eqn:Es; try discriminate.
    intros E.
    destruct (sane_step w w1 o Hs Hv Es) as [Hs1 Hle1].
    destruct (IH w1 w' Hs1 Hvs E) as [Hs' Hle'].
    split; [assumption |]. intros Hle Hg.
    apply andb_true_iff in Hg. destruct Hg as [Hg1 Hg2].
    apply Hle'; [| assumption]. apply Hle1; [assumption |].
    simpl. rewrite Hg1, Es. reflexivity.
Qed.

Lemma sane_NewWeighted (k : Z) : 0 <= k <= Int64.max_int -> sane (NewWeighted k).
Proof.
  intros Hk. unfold sane, NewWeighted, weights_ok; simpl. int64_bounds.
  repeat split; try lia; constructor.
Qed.

(** C1, as it is written, fails: a [Resize] below what is in use leaves
    [cur] above [size], also in a program whose every argument is valid. *)
Lemma used_may_exceed_capacity :
  ~ (forall k os w,
        0 <= k <= Int64.max_int -> forallb valid_op os = true ->
        run (init k) os = Ok w ->
        0 <= cur (sem w) <= size (sem w)).
Proof.
  intros H.
  specialize (H 2 [OpTryAcquire 2; OpResize 1]
                (mkWorld (mkWeighted 1 2 [] []) 0 0 [] [] [])
                ltac:(vm_compute; split; discriminate) eq_refl eq_refl).
  simpl in H. lia.
Qed.

(** C1, amended.  In every state reached from [NewWeighted(k)], [k >= 0], by
    calls that return and whose weights are not negative, [cur] and [size]
    are not negative; and [cur <= size] as long as no [Resize] set the
    capacity below what was in use when it was called. *)
Theorem used_within_bounds (k : Z) (os : list op) (w : World) :
  0 <= k <= Int64.max_int ->
  forallb valid_op os = true ->
  run (init k) os = Ok w ->
  0 <= cur (sem w) /\ 0 <= size (sem w) /\
  (never_shrinks_below_used (init k) os = true ->
   cur (sem w) <= size (sem w)).
Proof.
  intros Hk Hv E.
  destruct (sane_run os (init k) w (sane_NewWeighted k Hk) Hv E)
    as [(Hc & Hz & _) Hle].
  split; [lia |]. split; [lia |]. intros Hg. apply Hle; [simpl; lia | exact Hg].
Qed.

Lemma used_within_bounds_witness :
  0 <= cur (mkWeighted 3 2 [] []) /\ 0 <= size (mkWeighted 3 2 [] []) /\
  cur (mkWeighted 3 2 [] []) <= size (mkWeighted 3 2 [] []).
Proof.
  pose proof (used_within_bounds 2
                [OpTryAcquire 2; OpAcquire 1; OpResize 3; OpRelease 1]
                (mkWorld (mkWeighted 3 2 [] []) 1 1 [0%nat]
                   [mkCall RefWaiters 0 0%nat] [])
                ltac:(vm_compute; split; discriminate) eq_refl eq_refl)
    as (H1 & H2 & H3).
  split; [exact H1 |]. split; [exact H2 |]. apply H3. vm_compute. reflexivity.
Defined.

(** ** Resize and what is in use *)




(** ** Weights that are not positive *)

(** C10, as it is written, fails where [size - cur] overflows: after
    [NewWeighted(MaxInt64)] and [TryAcquire(-1)] the queue is empty and
    [cur = -1 <= size], yet [TryAcquire(0)] returns false, because
    [size - cur] wraps to [MinInt64]. *)
Lemma zero_weight_refused_after_wrap :
  ~ (forall c os w k,
        Int64.in_range c -> forallb typed_op os = true ->
        run (init c) os = Ok w ->
        k <= 0 -> waiters (sem w) = [] -> cur (sem w) <= size (sem w) ->
        snd (TryAcquire (sem w) k) = true).
Proof.
  intros H.
  specialize (H Int64.max_int [OpTryAcquire (-1)]
                (mkWorld (mkWeighted Int64.max_int (-1) [] []) 0 0 [] [] []) 0
                ltac:(vm_compute; split; discriminate) eq_refl eq_refl
                ltac:(lia) eq_refl ltac:(vm_compute; discriminate)).
  vm_compute in H. discriminate.
Qed.

(** C10, amended.  For a weight [k <= 0] and an empty wait queue: if [k] is
    at most the int64 difference [size - cur], then [TryAcquire] returns
    true and [Acquire] returns on its fast path, both setting [cur] to the
    int64 sum [cur + k]; the condition holds whenever [cur <= size] and
    [size - cur] does not overflow; the sum is the exact one, hence not
    above [cur], whenever it does not overflow.  On a new semaphore of
    capacity 0, [TryAcquire(0)] succeeds and [TryAcquire(-1)] succeeds and
    leaves [cur = -1]. *)
Theorem nonpositive_weight_admitted
    (s : Weighted) (h : nat) (c : chan) (k : Z) :
  k <= 0 -> waiters s = [] ->
  (k <= Int64.sub (size s) (cur s) ->
   TryAcquire s k = (set_cur s (Int64.add (cur s) k), true) /\
   Acquire s h c k = (set_cur s (Int64.add (cur s) k), AcquiredNil)) /\
  (cur s <= size s -> Int64.in_range (size s - cur s) ->
   k <= Int64.sub (size s) (cur s)) /\
  (Int64.in_range (cur s + k) ->
   Int64.add (cur s) k = cur s + k /\ Int64.add (cur s) k <= cur s) /\
  TryAcquire (NewWeighted 0) 0 = (NewWeighted 0, true) /\
  TryAcquire (NewWeighted 0) (-1) = (mkWeighted 0 (-1) [] [], true).
Proof.
  intros Hk Hq. split; [| split; [| split; [| split; reflexivity]]].
  - intros Hle.
    assert (Ha : admits s k = true) by (apply admits_iff; tauto).
    unfold TryAcquire, Acquire. fold (admits s k). rewrite Ha. tauto.
  - intros Hle Hr. rewrite sub_exact by assumption. lia.
  - intros Hr. rewrite add_exact by assumption. lia.
Qed.

Lemma nonpositive_weight_admitted_witness :
  (TryAcquire (mkWeighted 3 1 [] []) (-2) = (mkWeighted 3 (-1) [] [], true) /\
   Acquire (mkWeighted 3 1 [] []) 0 0%nat (-2) =
     (mkWeighted 3 (-1) [] [], AcquiredNil)) /\
  -2 <= Int64.sub 3 1 /\
  (Int64.add 1 (-2) = 1 + -2 /\ Int64.add 1 (-2) <= 1).
Proof.
  pose proof (nonpositive_weight_admitted (mkWeighted 3 1 [] []) 0 0%nat (-2)
                ltac:(lia) eq_refl) as (H1 & H2 & H3 & _).
  split; [| split].
  - apply H1. vm_compute. discriminate.
  - apply H2; vm_compute; [| split]; discriminate.
  - apply H3. vm_compute. split; discriminate.
Defined.

(** ** Cancellation of a waiter that [Resize] has moved *)

(** What the cancellation branch does with the element it holds: if the
    element is still in the list captured at enqueue time it is unlinked; if
    a [Resize] has moved the record (to a new element of the other list),
    the captured list no longer holds it and the state is left as it is. *)
Lemma ctxDone_stale_element (s : Weighted) (l : listRef) (e : nat) :
  ~ In e (map handle (getList s l)) ->
  Acquire_ctxDone s false l e = (s, RetCtxErr).
Proof.
  intros H. unfold Acquire_ctxDone. rewrite Remove_absent by assumption.
  destruct s, l; reflexivity.
Qed.

Lemma ctxDone_closed_wins (s : Weighted) (l : listRef) (e : nat) :
  Acquire_ctxDone s true l e = (s, RetNil).
Proof. reflexivity. Qed.

(** C7.  A waiter of weight 5 blocks on a semaphore of capacity 1 (in the
    impossible list); [Resize(5)] moves its record to the wait queue, as a
    new element; its context is then canceled: [ready] is not closed, the
    [Remove] of the element it holds finds nothing in the impossible list,
    and [Acquire] returns the context's error while the record stays in the
    wait queue.  The next [Release] grants that record: [cur] grows by 5 and
    the channel of the call that returned the error is closed.  The same
    happens in the other direction, when a shrinking [Resize] has moved a
    queued record to the impossible list.  Without a [Resize] in between,
    the canceled record is removed.  In general, a cancellation whose
    element is no longer in the list captured at enqueue time returns the
    error and leaves both lists as they are. *)
Theorem canceled_waiter_granted_after_Resize :
  run (init 1)
    [OpTryAcquire 1; OpAcquire 5; OpResize 5; OpCtxDone 0%nat] =
    Ok (mkWorld (mkWeighted 5 1 [mkElement 1 (mkWaiter 5 0%nat)] [])
          2 1 [] [] [(0%nat, RetCtxErr)]) /\
  run (init 1)
    [OpTryAcquire 1; OpAcquire 5; OpResize 5; OpCtxDone 0%nat; OpRelease 1] =
    Ok (mkWorld (mkWeighted 5 5 [] [])
          2 1 [0%nat] [] [(0%nat, RetCtxErr)]) /\
  run (init 2)
    [OpTryAcquire 2; OpAcquire 2; OpResize 1; OpCtxDone 0%nat;
     OpResize 2; OpRelease 2] =
    Ok (mkWorld (mkWeighted 2 2 [] [])
          3 1 [0%nat] [] [(0%nat, RetCtxErr)]) /\
  run (init 1) [OpTryAcquire 1; OpAcquire 1; OpCtxDone 0%nat; OpRelease 1] =
    Ok (mkWorld (mkWeighted 1 0 [] [])
          1 1 [] [] [(0%nat, RetCtxErr)]) /\
  (forall s l e,
      ~ In e (map handle (getList s l)) ->
      Acquire_ctxDone s false l e = (s, RetCtxErr)).
Proof.
  repeat (split; [reflexivity |]). intros. now apply ctxDone_stale_element.
Qed.

(** ** A [ready] channel is closed at most once

    Closing a closed channel would panic.  The channels already closed and
    the channels of the waiting records stay pairwise distinct: a record is
    created with a new channel, the loops move records without copying
    them, and a grant takes the record out of the queue when it closes its
    channel. *)

Lemma Remove_split (l : List) (h : nat) :
  Remove l h = l \/
  exists l1 x l2, l = l1 ++ x :: l2 /\ Remove l h = l1 ++ l2.
Proof.
  induction l as [| y r IH]; simpl; [now left |].
  destruct (Nat.eqb (handle y) h).
  - right. exists [], y, r. split; reflexivity.
  - destruct IH as [E | (l1 & x & l2 & E1 & E2)].
    + left. now rewrite E.
    + right. exists (y :: l1), x, l2. simpl. now rewrite E2, E1.
Qed.

Lemma partition_Permutation (l : list waiter) (sz : Z) :
  Permutation (filter (fits sz) l ++ filter (exceeds sz) l) l.
Proof.
  induction l as [| w l IH]; simpl; [constructor |].
  rewrite fits_not_exceeds. destruct (exceeds sz w); simpl.
  - symmetry. apply Permutation_cons_app. now symmetry.
  - now constructor.
Qed.

Lemma Resize_keeps_records (a b : list waiter) (sz : Z) :
  Permutation
    ((filter (fits sz) a ++ filter (fits sz) b) ++
     (filter (exceeds sz) b ++ filter (exceeds sz) a))
    (a ++ b).
Proof.
  transitivity ((filter (fits sz) a ++ filter (exceeds sz) a) ++
                (filter (fits sz) b ++ filter (exceeds sz) b)).
  - rewrite <- !app_assoc. apply Permutation_app_head.
    rewrite !app_assoc. rewrite (Permutation_app_comm (filter (fits sz) b ++ _)).
    rewrite <- !app_assoc. apply Permutation_app_head.
    reflexivity.
  - apply Permutation_app; apply partition_Permutation.
Qed.

Lemma channels_of_Release (s : Weighted) (k : Z) (s' : Weighted)
    (cl0 cl : list chan) :
  Release s k = Return (s', cl) ->
  channels_of (cl0 ++ cl) s' = channels_of cl0 s.
Proof.
  intros E. apply Release_uses_loop in E. destruct E as (El & _ & Ei).
  destruct (Release_loop_prefix (size s) (waiters s) (Int64.sub (cur s) k))
    as (g & rest & Hq & Hl & _).
  rewrite Hl in El. inversion El as [[Ec Er Ecl]]. unfold channels_of.
  rewrite Ei, Er, Hq. unfold signals, records.
  rewrite !map_app, !map_map, <- !app_assoc. reflexivity.
Qed.

Lemma channels_of_Resize (s : Weighted) (f : nat) (k : Z) (s' : Weighted)
    (f' : nat) (cl0 cl : list chan) :
  Resize s f k = Return (s', f', cl) ->
  Permutation (channels_of (cl0 ++ cl) s') (channels_of cl0 s).
Proof.
  intros E.
  destruct (Z.lt_ge_cases k 0) as [Hneg | Hk].
  { rewrite Resize_panics in E by assumption. discriminate. }
  destruct (Resize_effect s f k Hk)
    as (s2 & f2 & g & E2 & _ & Himp & Hws & _).
  rewrite E2 in E. inversion E; subst s2 f2 cl; clear E.
  unfold channels_of. rewrite <- app_assoc. apply Permutation_app_head.
  replace (signals g) with (map ready (records g))
    by (unfold signals, records; now rewrite map_map).
  rewrite <- map_app. apply Permutation_map.
  rewrite app_assoc, Hws, Himp. apply Resize_keeps_records.
Qed.

Lemma Permutation_insert3 (a : chan) (p q r : list chan) :
  Permutation (a :: p ++ q ++ r) (p ++ q ++ a :: r).
Proof. rewrite !app_assoc. apply Permutation_middle. Qed.

Lemma Permutation_insert4 (a : chan) (p q r t : list chan) :
  Permutation (a :: p ++ q ++ r ++ t) (p ++ q ++ r ++ a :: t).
Proof. rewrite !app_assoc. apply Permutation_middle. Qed.

Ltac flatten_channels :=
  unfold channels_of, records; simpl;
  repeat (rewrite map_app; simpl);
  repeat rewrite <- app_assoc; simpl.

Lemma channels_of_Remove (cl : list chan) (s : Weighted) (l : listRef) (e : nat) :
  let s' := setList s l (Remove (getList s l) e) in
  channels_of cl s' = channels_of cl s \/
  exists x, Permutation (x :: channels_of cl s') (channels_of cl s).
Proof.
  destruct (Remove_split (getList s l) e) as [E | (l1 & x & l2 & E1 & E2)];
    cbv zeta.
  - left. rewrite E. destruct l, s; reflexivity.
  - right. exists (ready (Value x)). rewrite E2.
    destruct l; simpl in *; unfold channels_of; simpl; rewrite E1;
      flatten_channels.
    + apply Permutation_insert3.
    + apply Permutation_insert4.
Qed.

Lemma channels_of_Acquire (cl : list chan) (s : Weighted) (h : nat)
    (c : chan) (k : Z) :
  match snd (Acquire s h c k) with
  | AcquiredNil => channels_of cl (fst (Acquire s h c k)) = channels_of cl s
  | Waiting _ _ c' =>
      c' = c /\
      Permutation (channels_of cl (fst (Acquire s h c k)))
        (c :: channels_of cl s)
  end.
Proof.
  destruct (admits s k) eqn:Ha.
  - unfold Acquire. fold (admits s k). rewrite Ha. reflexivity.
  - rewrite Acquire_slow_path by assumption.
    destruct (k >? size s); simpl; (split; [reflexivity |]);
      symmetry; flatten_channels.
    + rewrite !app_assoc. apply Permutation_cons_append.
    + apply Permutation_insert3.
Qed.

Lemma channels_distinct_perm (w w' : World) :
  Permutation (channels w') (channels w) ->
  (nextChan w <= nextChan w')%nat ->
  channels_distinct w -> channels_distinct w'.
Proof.
  intros Hp Hn [Hd Hf]. split.
  - eapply Permutation_NoDup; [symmetry; exact Hp | exact Hd].
  - eapply Permutation_Forall; [symmetry; exact Hp |].
    eapply Forall_impl; [| exact Hf]. simpl. intros; lia.
Qed.

Lemma channels_distinct_step (w w' : World) (o : op) :
  channels_distinct w -> step w o = Ok w' -> channels_distinct w'.
Proof.
  intros Hc. destruct o as [k | k | c | c | k | k]; simpl.
  - intros E. inversion E; subst; clear E.
    apply (channels_distinct_perm w); simpl; [| lia | exact Hc].
    unfold channels; simpl. unfold TryAcquire.
    destruct (_ && _); reflexivity.
  - pose proof (channels_of_Acquire (closed w) (sem w) (nextElem w) (nextChan w) k) as H.
    destruct (Acquire (sem w) (nextElem w) (nextChan w) k) as [s' [| l e c]];
      simpl in H; intros E; inversion E; subst; clear E.
    + apply (channels_distinct_perm w); simpl; [| lia | exact Hc].
      unfold channels; simpl. fold (channels_of (closed w) s'). now rewrite H.
    + destruct H as [-> Hp]. destruct Hc as [Hd Hf]. split.
      * eapply Permutation_NoDup; [symmetry; exact Hp |].
        constructor; [| exact Hd].
        intros Hin. rewrite Forall_forall in Hf. apply Hf in Hin. lia.
      * eapply Permutation_Forall; [symmetry; exact Hp |]. simpl.
        constructor; [lia |].
        eapply Forall_impl; [| exact Hf]. simpl. intros; lia.
  - destruct (find_call w c); [| discriminate].
    destruct (is_closed w c); [| discriminate].
    intros E. inversion E; subst. exact Hc.
  - destruct (find_call w c) as [cl |]; [| discriminate].
    unfold Acquire_ctxDone. destruct (is_closed w c).
    + intros E. inversion E; subst. exact Hc.
    + intros E. inversion E; subst; clear E.
      destruct (channels_of_Remove (closed w) (sem w) (c_list cl) (c_elem cl))
        as [Heq | (x & Hp)].
      * apply (channels_distinct_perm w); simpl; [| lia | exact Hc].
        unfold channels; simpl. fold (channels_of (closed w) (sem w)).
        now rewrite <- Heq.
      * destruct Hc as [Hd Hf]. split.
        -- apply (Permutation_NoDup (Permutation_sym Hp)) in Hd.
           now inversion Hd.
        -- apply (Permutation_Forall (Permutation_sym Hp)) in Hf.
           now inversion Hf.
  - destruct (Release (sem w) k) as [[s' cl] |] eqn:ER; [| discriminate].
    intros E. inversion E; subst; clear E.
    apply (channels_distinct_perm w); simpl; [| lia | exact Hc].
    unfold channels; simpl.
    fold (channels_of (closed w ++ cl) s').
    now rewrite (channels_of_Release _ _ _ _ _ ER).
  - destruct (Resize (sem w) (nextElem w) k) as [[[s' f'] cl] |] eqn:ER;
      [| discriminate].
    intros E. inversion E; subst; clear E.
    apply (channels_distinct_perm w); simpl; [| lia | exact Hc].
    exact (channels_of_Resize _ _ _ _ _ _ _ ER).
Qed.

Lemma NoDup_app_disjoint (a b : list chan) (x : chan) :
  NoDup (a ++ b) -> In x a -> ~ In x b.
Proof.
  induction a as [| y a IH]; simpl; [tauto |].
  intros Hd [-> | Hin] Hb; inversion Hd as [| ? ? Hn Hd']; subst.
  - apply Hn. apply in_or_app. now right.
  - now apply IH.
Qed.

(** In every interleaving, no [ready] channel is closed twice, and a
    channel that has been closed belongs to no record still waiting. *)
Lemma ready_closed_at_most_once (k : Z) (os : list op) (w : World) :
  run (init k) os = Ok w ->
  NoDup (closed w) /\
  (forall e, In e (waiters (sem w) ++ impossibleWaiters (sem w)) ->
             ~ In (ready (Value e)) (closed w)).
Proof.
  assert (H : forall os w0 w, channels_distinct w0 -> run w0 os = Ok w ->
                              channels_distinct w).
  { clear. induction os as [| o os IH]; intros w0 w Hc; simpl.
    - intros E. now inversion E; subst.
    - destruct (step w0 o) as [w1 | |] eqn:Es; try discriminate.
      apply IH. eapply channels_distinct_step; eauto. }
  intros E. apply H in E; [| split; constructor].
  destruct E as [Hd _]. unfold channels in Hd. split.
  - eapply NoDup_app_remove_r. exact Hd.
  - intros e He Hin.
    apply (NoDup_app_disjoint _ _ (ready (Value e)) Hd Hin).
    unfold records. rewrite <- map_app, map_map.
    exact (in_map (fun x => ready (Value x)) _ e He).
Qed.

(** * Further properties of the operations *)

(** ** The diagnostics and the wake-ups *)

Lemma Len_app (a b : List) : Len (a ++ b) = Len a + Len b.
Proof. unfold Len. rewrite length_app. lia. Qed.

Lemma Len_records (l l' : List) :
  Permutation (records l) (records l') -> Len l = Len l'.
Proof.
  intros H. apply Permutation_length in H. unfold records in H.
  rewrite !length_map in H. unfold Len. now rewrite H.
Qed.

Lemma signals_length (g : List) : Z.of_nat (List.length (signals g)) = Len g.
Proof. unfold signals, Len. now rewrite length_map. Qed.

(** [Waiters()] goes down by exactly the number of channels that a
    [Release] or a [Resize] closes: a record leaves the two lists only by
    being woken, and the reclassification of [Resize] loses and duplicates
    nothing.  A call that panics leaves the count as it was. *)
Theorem Waiters_drop_by_wakeups (s : Weighted) (f : nat) (k : Z) :
  match Release s k with
  | Return (s', cl) => Waiters s' + Z.of_nat (List.length cl) = Waiters s
  | Panic _ s' => Waiters s' = Waiters s
  end /\
  match Resize s f k with
  | Return (s', _, cl) => Waiters s' + Z.of_nat (List.length cl) = Waiters s
  | Panic _ s' => Waiters s' = Waiters s
  end.
Proof.
  split.
  - destruct (Release s k) as [[s' cl] | msg s'] eqn:E.
    + apply Release_uses_loop in E. destruct E as (El & _ & Ei).
      destruct (Release_loop_prefix (size s) (waiters s) (Int64.sub (cur s) k))
        as (g & rest & Hq & Hl & _).
      rewrite Hl in El. inversion El as [[Ec Er Ecl]].
      unfold Waiters. rewrite Ei, Er, Hq, Len_app, signals_length. lia.
    + unfold Release in E. simpl in E.
      destruct (Int64.sub (cur s) k <? 0).
      * inversion E; subst. reflexivity.
      * destruct (Release_loop _ _ _) as [[? ?] ?]. discriminate.
  - destruct (Z.lt_ge_cases k 0) as [Hneg | Hk].
    + rewrite Resize_panics by assumption. reflexivity.
    + destruct (Resize_effect s f k Hk)
        as (s' & f' & g & E & _ & Himp & Hws & _).
      rewrite E. rewrite signals_length. unfold Waiters.
      assert (H : Len ((g ++ waiters s') ++ impossibleWaiters s') =
                  Len (waiters s ++ impossibleWaiters s)).
      { apply Len_records. rewrite !records_app, Hws, Himp.
        apply Resize_keeps_records. }
      rewrite !Len_app in H. lia.
Qed.

(** ** Accounting of [Release] *)

Lemma Release_effect (s : Weighted) (k : Z) (s' : Weighted) (cl : list chan) :
  Release s k = Return (s', cl) ->
  exists g,
    cl = signals g /\
    waiters s = g ++ waiters s' /\
    cur s' = add_all (Int64.sub (cur s) k) g /\
    granted_in_turn (size s) (Int64.sub (cur s) k) g /\
    front_blocked (size s) (cur s') (waiters s') /\
    0 <= Int64.sub (cur s) k /\
    size s' = size s /\ impossibleWaiters s' = impossibleWaiters s.
Proof.
  intros E.
  assert (Hpos : 0 <= Int64.sub (cur s) k).
  { destruct (Z.lt_ge_cases (Int64.sub (cur s) k) 0) as [Hneg | Hge]; [| lia].
    rewrite Release_panics in E by assumption. discriminate. }
  apply Release_uses_loop in E. destruct E as (El & Es & Ei).
  destruct (Release_loop_prefix (size s) (waiters s) (Int64.sub (cur s) k))
    as (g & rest & Hq & Hl & Hg & Hb).
  rewrite Hl in El. inversion El as [[Ec Er Ecl]].
  exists g. rewrite Ec, Er. tauto.
Qed.

(** In a state of the data model (capacity, use and weights not negative),
    a [Release(k)] that returns has woken a prefix [g] of the wait queue,
    and what is in use afterwards is exactly the old amount, minus [k],
    plus the weights of [g], in unbounded integers: nothing is lost to
    overflow.  The new amount is at most the larger of [cur - k] and
    [size]. *)
Theorem Release_conserves_weight
    (s : Weighted) (k : Z) (s' : Weighted) (cl : list chan) :
  sane s -> 0 <= k <= Int64.max_int ->
  Release s k = Return (s', cl) ->
  exists g,
    cl = signals g /\
    waiters s = g ++ waiters s' /\
    cur s' = cur s - k + total g /\
    k <= cur s /\
    cur s' <= Z.max (cur s - k) (size s).
Proof.
  intros (Hc & Hz & Hw & Hi) Hk E.
  destruct (Release_effect s k s' cl E)
    as (g & Hcl & Hq & Hcur & Hg & _ & Hpos & _).
  assert (Hsub : Int64.sub (cur s) k = cur s - k)
    by (apply sub_exact; int64_bounds; lia).
  rewrite Hsub in *.
  rewrite Hq in Hw. apply weights_ok_app in Hw. destruct Hw as [Hwg _].
  destruct (granted_exact (size s) g (cur s - k)) as (Ea & Ht & Hle);
    try assumption.
  { int64_bounds; lia. }
  exists g. rewrite Hcur, Ea. repeat split; try assumption; try lia.
  destruct Hle as [-> | Hle]; simpl; lia.
Qed.

Lemma Release_conserves_weight_witness :
  exists g,
    [0%nat] = signals g /\
    [mkElement 0 (mkWaiter 2 0%nat); mkElement 1 (mkWaiter 3 1%nat)] =
      g ++ [mkElement 1 (mkWaiter 3 1%nat)] /\
    3 = 4 - 3 + total g /\ 3 <= 4 /\ 3 <= Z.max (4 - 3) 4.
Proof.
  exact (Release_conserves_weight
           (mkWeighted 4 4
              [mkElement 0 (mkWaiter 2 0%nat); mkElement 1 (mkWaiter 3 1%nat)]
              [])
           3
           (mkWeighted 4 3 [mkElement 1 (mkWaiter 3 1%nat)] [])
           [0%nat]
           ltac:(unfold sane, weights_ok; simpl; int64_bounds;
                 repeat split; try lia; repeat constructor; simpl; lia)
           ltac:(int64_bounds; lia)
           eq_refl).
Defined.

(** ** Acquire and release undo each other *)

(** With no waiter queued, in a state of the data model: a [TryAcquire(k)]
    that succeeds followed by [Release(k)] gives back the very state, and
    wakes nobody; and when [k <= cur <= size], [Release(k)] followed by
    [TryAcquire(k)] succeeds and gives back the state as well. *)
Theorem TryAcquire_Release_round_trip (s : Weighted) (k : Z) :
  sane s -> 0 <= k <= Int64.max_int -> waiters s = [] ->
  (admits s k = true ->
   Release (fst (TryAcquire s k)) k = Return (s, [])) /\
  (k <= cur s <= size s ->
   exists s1,
     Release s k = Return (s1, []) /\ TryAcquire s1 k = (s, true)).
Proof.
  intros Hs Hk Hq. split.
  - intros Ha. destruct (fast_path_exact s k Hs Hk Ha) as [Ea Hle].
    destruct Hs as (Hc & Hz & _).
    unfold TryAcquire. fold (admits s k). rewrite Ha. simpl.
    unfold Release. simpl. rewrite Ea, Hq.
    assert (Es : Int64.sub (cur s + k) k = cur s)
      by (rewrite sub_exact; int64_bounds; lia).
    rewrite Es. destruct (Z.ltb_spec (cur s) 0); [lia |]. simpl.
    destruct s; simpl in *. now subst.
  - intros Hle. destruct Hs as (Hc & Hz & _).
    assert (Es : Int64.sub (cur s) k = cur s - k)
      by (apply sub_exact; int64_bounds; lia).
    exists (set_cur s (cur s - k)). split.
    + unfold Release. simpl. rewrite Es, Hq.
      destruct (Z.ltb_spec (cur s - k) 0); [lia |]. simpl.
      destruct s; simpl in *. now subst.
    + unfold TryAcquire. simpl. rewrite Hq. simpl.
      assert (E1 : Int64.sub (size s) (cur s - k) = size s - (cur s - k))
        by (apply sub_exact; int64_bounds; lia).
      assert (E2 : Int64.add (cur s - k) k = cur s)
        by (rewrite add_exact; int64_bounds; lia).
      rewrite E1, E2.
      destruct (Z.geb_spec (size s - (cur s - k)) k); [| lia]. simpl.
      destruct s; reflexivity.
Qed.

Lemma TryAcquire_Release_round_trip_witness :
  Release (fst (TryAcquire (mkWeighted 5 2 [] []) 3)) 3 =
    Return (mkWeighted 5 2 [] [], []) /\
  exists s1,
    Release (mkWeighted 5 2 [] []) 2 = Return (s1, []) /\
    TryAcquire s1 2 = (mkWeighted 5 2 [] [], true).
Proof.
  assert (Hs : sane (mkWeighted 5 2 [] [])).
  { unfold sane, weights_ok; simpl; int64_bounds.
    repeat split; try lia; constructor. }
  split.
  - apply (proj1 (TryAcquire_Release_round_trip (mkWeighted 5 2 [] []) 3 Hs
                    ltac:(int64_bounds; lia) eq_refl)).
    reflexivity.
  - apply (proj2 (TryAcquire_Release_round_trip (mkWeighted 5 2 [] []) 2 Hs
                    ltac:(int64_bounds; lia) eq_refl)).
    simpl. lia.
Defined.

(** ** A settled queue *)

Lemma Release_loop_blocked (sz c : Z) (q : List) :
  front_blocked sz c q -> Release_loop sz c q = (c, q, []).
Proof.
  destruct q as [| e q]; [reflexivity |].
  unfold front_blocked. simpl. intros H. now apply Release_loop_stops.
Qed.

Lemma filter_all (A : Type) (P : A -> bool) (l : list A) :
  Forall (fun x => P x = true) l -> filter P l = l.
Proof.
  induction 1 as [| x l Hx _ IH]; simpl; [reflexivity |].
  now rewrite Hx, IH.
Qed.

Lemma filter_none (A : Type) (P : A -> bool) (l : list A) :
  Forall (fun x => P x = false) l -> filter P l = [].
Proof.
  induction 1 as [| x l Hx _ IH]; simpl; [reflexivity |].
  now rewrite Hx.
Qed.

Lemma Resize_settles (s : Weighted) (f : nat) (k : Z)
    (s' : Weighted) (f' : nat) (cl : list chan) :
  Resize s f k = Return (s', f', cl) ->
  0 <= k /\ size s' = k /\ classified s' /\
  front_blocked k (cur s') (waiters s').
Proof.
  intros E. destruct (Z.lt_ge_cases k 0) as [Hneg | Hk].
  { rewrite Resize_panics in E by assumption. discriminate. }
  pose proof (classified_Resize _ _ _ _ _ _ E) as Hc.
  destruct (Resize_returns s f k Hk) as (f2 & E2). cbv zeta in E2.
  rewrite E2 in E.
  match type of E with
  | context [Release_loop k (cur s) ?q] =>
      destruct (Release_loop_prefix k q (cur s))
        as (g & rest & Hq & Hl & _ & Hb);
      rewrite Hl in E
  end.
  inversion E; subst; clear E. simpl in *. tauto.
Qed.

Lemma add_all_in_range (g : List) : forall c,
  Int64.in_range c -> Int64.in_range (add_all c g).
Proof.
  induction g as [| e g IH]; intros c Hc; simpl; [exact Hc |].
  apply IH. apply wrap_range.
Qed.

Lemma Resize_explicit (s : Weighted) (fresh : nat) (k : Z) :
  0 <= k ->
  Resize s fresh k =
  let moved_in := filter (fits k) (records (impossibleWaiters s)) in
  let moved_out := filter (exceeds k) (records (waiters s)) in
  let q := filter (fun e => fits k (Value e)) (waiters s) ++
           realloc fresh moved_in in
  let imp := filter (fun e => exceeds k (Value e)) (impossibleWaiters s) ++
             realloc (fresh + List.length moved_in)%nat moved_out in
  let '(c', q', cl) := Release_loop k (cur s) q in
  Return (mkWeighted k c' q' imp,
          (fresh + List.length moved_in + List.length moved_out)%nat, cl).
Proof.
  intros Hk. unfold Resize. simpl.
  destruct (Z.ltb_spec k 0) as [? | _]; [lia |].
  rewrite Resize_possible_spec, Resize_impossible_spec.
  rewrite filter_app, filter_fits_realloc.
  rewrite records_app, records_realloc, filter_app, filter_exceeds_fits, app_nil_r.
  rewrite Resize_loop_is_Release_loop. cbv zeta.
  destruct (Release_loop k (cur s) _) as [[c' q'] cl]. reflexivity.
Qed.

(** Once a [Release] or a [Resize] has returned, nothing is left to wake: a
    [Release(0)] that follows closes no channel and leaves the state as it
    is (it panics only if [cur] is negative). *)
Theorem Release_zero_after_wakeup
    (s : Weighted) (f : nat) (k : Z) (s' : Weighted) (f' : nat)
    (cl : list chan) :
  Release s k = Return (s', cl) \/
  (Int64.in_range (cur s) /\ Resize s f k = Return (s', f', cl)) ->
  0 <= cur s' ->
  Release s' 0 = Return (s', []).
Proof.
  intros E Hpos.
  assert (H : Int64.in_range (cur s') /\
              front_blocked (size s') (cur s') (waiters s')).
  { destruct E as [E | [Hc E]].
    - destruct (Release_effect s k s' cl E)
        as (g & _ & _ & Hcur & _ & Hb & _ & Hsz & _).
      rewrite Hsz. split; [| exact Hb].
      rewrite Hcur. apply add_all_in_range, wrap_range.
    - destruct (Resize_settles _ _ _ _ _ _ E) as (Hk & Hsz & _ & Hb).
      rewrite Hsz. split; [| exact Hb].
      destruct (Resize_effect s f k Hk) as (s2 & f2 & g & E2 & _ & _ & _ & _ & Hcur & _).
      rewrite E2 in E. inversion E; subst s2.
      rewrite Hcur. now apply add_all_in_range. }
  destruct H as [Hr Hb].
  assert (Es : Int64.sub (cur s') 0 = cur s').
  { unfold Int64.sub. rewrite Z.sub_0_r. now apply wrap_in_range. }
  rewrite Release_returns by (rewrite Es; exact Hpos).
  rewrite Es, Release_loop_blocked by exact Hb.
  now destruct s'.
Qed.

Lemma Release_zero_after_wakeup_witness :
  Release (mkWeighted 4 3 [mkElement 1 (mkWaiter 3 1%nat)] []) 0 =
    Return (mkWeighted 4 3 [mkElement 1 (mkWaiter 3 1%nat)] [], []).
Proof.
  apply (Release_zero_after_wakeup
           (mkWeighted 4 4
              [mkElement 0 (mkWaiter 2 0%nat); mkElement 1 (mkWaiter 3 1%nat)]
              [])
           0 3
           (mkWeighted 4 3 [mkElement 1 (mkWaiter 3 1%nat)] [])
           0 [0%nat]).
  - left. reflexivity.
  - simpl. lia.
Defined.

(** [Resize] to the same capacity twice is [Resize] once: the second call
    moves no record, allocates no list element, closes no channel and
    returns the state it was given. *)
Theorem Resize_idempotent
    (s : Weighted) (f : nat) (k : Z) (s' : Weighted) (f' : nat)
    (cl : list chan) :
  Resize s f k = Return (s', f', cl) ->
  Resize s' f' k = Return (s', f', []).
Proof.
  intros E.
  destruct (Resize_settles _ _ _ _ _ _ E) as (Hk & Hsz & [Hcw Hci] & Hb).
  rewrite Hsz in Hcw, Hci.
  assert (Hw1 : filter (fun e => fits k (Value e)) (waiters s') = waiters s').
  { apply filter_all. eapply Forall_impl; [| exact Hcw].
    simpl. intros e He. unfold fits. now apply Z.leb_le. }
  assert (Hw2 : filter (exceeds k) (records (waiters s')) = []).
  { rewrite <- records_filter.
    rewrite (filter_none _ (fun e => exceeds k (Value e))); [reflexivity |].
    eapply Forall_impl; [| exact Hcw].
    simpl. intros e He. unfold exceeds. apply Z.ltb_ge. exact He. }
  assert (Hi1 : filter (fun e => exceeds k (Value e)) (impossibleWaiters s') =
                impossibleWaiters s').
  { apply filter_all. eapply Forall_impl; [| exact Hci].
    simpl. intros e He. unfold exceeds. now apply Z.ltb_lt. }
  assert (Hi2 : filter (fits k) (records (impossibleWaiters s')) = []).
  { rewrite <- records_filter.
    rewrite (filter_none _ (fun e => fits k (Value e))); [reflexivity |].
    eapply Forall_impl; [| exact Hci].
    simpl. intros e He. unfold fits. apply Z.leb_gt. exact He. }
  rewrite (Resize_explicit s' f' k Hk). cbv zeta.
  rewrite Hw1, Hw2, Hi1, Hi2. simpl. rewrite !app_nil_r, !Nat.add_0_r.
  rewrite Release_loop_blocked by exact Hb.
  rewrite <- Hsz. now destruct s'.
Qed.

Lemma Resize_idempotent_witness :
  Resize (mkWeighted 3 2 [mkElement 3 (mkWaiter 2 2%nat)]
            [mkElement 2 (mkWaiter 7 3%nat)]) 4 3 =
    Return (mkWeighted 3 2 [mkElement 3 (mkWaiter 2 2%nat)]
              [mkElement 2 (mkWaiter 7 3%nat)], 4%nat, []).
Proof.
  apply (Resize_idempotent
           (mkWeighted 5 1
              [mkElement 0 (mkWaiter 1 1%nat)]
              [mkElement 1 (mkWaiter 2 2%nat); mkElement 2 (mkWaiter 7 3%nat)])
           3 3 _ _ [1%nat]).
  reflexivity.
Defined.

(** ** Releasing in two steps *)

Lemma Release_loop_split (sz : Z) (q : List) : forall c b,
  0 <= sz <= Int64.max_int -> weights_ok q ->
  0 <= b -> b <= c -> c <= Int64.max_int ->
  Release_loop sz (c - b) q =
  let '(c1, q1, cl1) := Release_loop sz c q in
  let '(c2, q2, cl2) := Release_loop sz (c1 - b) q1 in
  (c2, q2, cl1 ++ cl2).
Proof.
  induction q as [| e q IH]; intros c b Hsz Hw Hb Hbc Hc.
  - reflexivity.
  - inversion Hw as [| ? ? He Hw']; subst.
    assert (E1 : Int64.sub sz c = sz - c)
      by (apply sub_exact; int64_bounds; lia).
    assert (E2 : Int64.sub sz (c - b) = sz - (c - b))
      by (apply sub_exact; int64_bounds; lia).
    cbn [Release_loop]. rewrite E1.
    destruct (Z.ltb_spec (sz - c) (n (Value e))) as [Hlt | Hge].
    + cbn [Release_loop].
      destruct (Release_loop sz (c - b) (e :: q)) as [[c2 q2] cl2] eqn:El.
      cbn [Release_loop] in El. rewrite El. reflexivity.
    + rewrite E2.
      destruct (Z.ltb_spec (sz - (c - b)) (n (Value e))) as [? | _]; [lia |].
      assert (A1 : Int64.add c (n (Value e)) = c + n (Value e))
        by (apply add_exact; int64_bounds; lia).
      assert (A2 : Int64.add (c - b) (n (Value e)) = c + n (Value e) - b)
        by (rewrite add_exact; int64_bounds; lia).
      rewrite A1, A2.
      rewrite (IH (c + n (Value e)) b) by (try assumption; lia).
      destruct (Release_loop sz (c + n (Value e)) q) as [[c1 q1] cl1].
      destruct (Release_loop sz (c1 - b) q1) as [[c2 q2] cl2].
      reflexivity.
Qed.

Lemma Release_loop_bounds (sz : Z) (q : List) (c c' : Z) (q' : List)
    (cl : list chan) :
  0 <= sz <= Int64.max_int -> 0 <= c <= Int64.max_int -> weights_ok q ->
  Release_loop sz c q = (c', q', cl) ->
  c <= c' <= Int64.max_int /\ weights_ok q'.
Proof.
  intros Hsz Hc Hw E.
  destruct (Release_loop_prefix sz q c) as (g & rest & Hq & Hl & Hg & _).
  rewrite Hl in E. inversion E; subst; clear E.
  apply weights_ok_app in Hw. destruct Hw as [Hwg Hwr].
  destruct (granted_exact sz g c) as (Ea & Ht & Hle); try assumption.
  { int64_bounds; lia. }
  rewrite Ea. split; [| exact Hwr].
  destruct Hle as [-> | Hle]; simpl; lia.
Qed.

(** In a state of the data model, releasing [a] and then [b] is releasing
    [a + b]: whenever [Release(a + b)] returns, so do [Release(a)] and then
    [Release(b)], they end in the same state, and the channels they close
    are, in order, those that the single call closes. *)
Theorem Release_in_two_steps
    (s : Weighted) (a b : Z) (s2 : Weighted) (cl : list chan) :
  sane s -> 0 <= a -> 0 <= b -> a + b <= Int64.max_int ->
  Release s (a + b) = Return (s2, cl) ->
  exists s1 cl1 cl2,
    Release s a = Return (s1, cl1) /\
    Release s1 b = Return (s2, cl2) /\
    cl = cl1 ++ cl2.
Proof.
  intros (Hc & Hz & Hw & Hi) Ha Hb Hab E.
  assert (Eab : Int64.sub (cur s) (a + b) = cur s - (a + b))
    by (apply sub_exact; int64_bounds; lia).
  assert (Ea : Int64.sub (cur s) a = cur s - a)
    by (apply sub_exact; int64_bounds; lia).
  assert (Hpos : 0 <= cur s - (a + b)).
  { destruct (Z.lt_ge_cases (Int64.sub (cur s) (a + b)) 0) as [Hneg | Hge];
      [| lia].
    rewrite Release_panics in E by assumption. discriminate. }
  rewrite Release_returns in E by lia. rewrite Eab in E.
  replace (cur s - (a + b)) with (cur s - a - b) in E by lia.
  rewrite (Release_loop_split (size s) (waiters s) (cur s - a) b) in E
    by (try assumption; lia).
  destruct (Release_loop (size s) (cur s - a) (waiters s))
    as [[c1 q1] cl1] eqn:E1.
  assert (Hca : 0 <= cur s - a <= Int64.max_int) by lia.
  destruct (Release_loop_bounds _ _ _ _ _ _ Hz Hca Hw E1) as [Hc1 Hw1].
  destruct (Release_loop (size s) (c1 - b) q1) as [[c2 q2] cl2] eqn:E2.
  inversion E; subst; clear E.
  exists (mkWeighted (size s) c1 q1 (impossibleWaiters s)), cl1, cl2.
  split; [| split; [| reflexivity]].
  - rewrite Release_returns by lia. rewrite Ea, E1. reflexivity.
  - assert (Eb : Int64.sub c1 b = c1 - b)
      by (apply sub_exact; int64_bounds; lia).
    rewrite Release_returns by (simpl; lia). simpl. rewrite Eb, E2.
    reflexivity.
Qed.

Lemma Release_in_two_steps_witness :
  exists s1 cl1 cl2,
    Release (mkWeighted 4 4
               [mkElement 0 (mkWaiter 1 0%nat); mkElement 1 (mkWaiter 2 1%nat)]
               []) 1 = Return (s1, cl1) /\
    Release s1 2 = Return (mkWeighted 4 4 [] [], cl2) /\
    [0%nat; 1%nat] = cl1 ++ cl2.
Proof.
  apply (Release_in_two_steps
           (mkWeighted 4 4
              [mkElement 0 (mkWaiter 1 0%nat); mkElement 1 (mkWaiter 2 1%nat)]
              [])
           1 2).
  - unfold sane, weights_ok; simpl; int64_bounds.
    repeat split; try lia; repeat constructor; simpl; lia.
  - lia.
  - lia.
  - int64_bounds; lia.
  - reflexivity.
Defined.

(** ** A semaphore that holds more than its capacity *)

(** After a shrinking [Resize], while [cur > size], in a state of the data
    model: no weight [k >= 0] is admitted ([TryAcquire] fails and leaves the
    state, [Acquire] blocks), and a [Release(k)] that leaves [cur - k] still
    above [size] wakes nobody. *)
Theorem overcommitted_admits_nothing
    (s : Weighted) (h : nat) (c : chan) (k : Z) :
  sane s -> size s < cur s -> 0 <= k <= Int64.max_int ->
  TryAcquire s k = (s, false) /\
  (exists l, snd (Acquire s h c k) = Waiting l h c) /\
  (size s < cur s - k ->
   Release s k = Return (set_cur s (cur s - k), [])).
Proof.
  intros Hs Hlt Hk.
  assert (Ha : admits s k = false).
  { destruct (admits s k) eqn:Ha; [| reflexivity].
    destruct (fast_path_exact s k Hs Hk Ha). lia. }
  split; [| split].
  - unfold TryAcquire. fold (admits s k). now rewrite Ha.
  - rewrite Acquire_slow_path by assumption.
    destruct (k >? size s); eexists; reflexivity.
  - intros Hstill. destruct Hs as (Hc & Hz & Hw & Hi).
    assert (Es : Int64.sub (cur s) k = cur s - k)
      by (apply sub_exact; int64_bounds; lia).
    rewrite Release_returns by lia. rewrite Es.
    rewrite Release_loop_blocked; [reflexivity |].
    unfold front_blocked. destruct (waiters s) as [| e q]; simpl; [exact I |].
    inversion Hw as [| ? ? He _]; subst.
    rewrite sub_exact by (int64_bounds; lia). lia.
Qed.

Lemma overcommitted_admits_nothing_witness :
  TryAcquire (mkWeighted 1 3 [mkElement 0 (mkWaiter 1 0%nat)] []) 0 =
    (mkWeighted 1 3 [mkElement 0 (mkWaiter 1 0%nat)] [], false) /\
  Release (mkWeighted 1 3 [mkElement 0 (mkWaiter 1 0%nat)] []) 1 =
    Return (mkWeighted 1 2 [mkElement 0 (mkWaiter 1 0%nat)] [], []).
Proof.
  assert (Hs : sane (mkWeighted 1 3 [mkElement 0 (mkWaiter 1 0%nat)] [])).
  { unfold sane, weights_ok; simpl; int64_bounds.
    repeat split; try lia; repeat constructor; simpl; lia. }
  split.
  - apply (overcommitted_admits_nothing _ 0%nat 0%nat 0 Hs);
      simpl; int64_bounds; lia.
  - apply (proj2 (proj2 (overcommitted_admits_nothing _ 0%nat 0%nat 1 Hs
                           ltac:(simpl; lia) ltac:(int64_bounds; lia)))).
    simpl. lia.
Defined.

(** ** Channels and records along an interleaving *)

Lemma channels_distinct_run (os : list op) : forall w0 w,
  channels_distinct w0 -> run w0 os = Ok w -> channels_distinct w.
Proof.
  induction os as [| o os IH]; intros w0 w Hc; simpl.
  - intros E. now inversion E; subst.
  - destruct (step w0 o) as [w1 | |] eqn:Es; try discriminate.
    apply IH. eapply channels_distinct_step; eauto.
Qed.

Lemma channels_distinct_init (k : Z) : channels_distinct (init k).
Proof. split; constructor. Qed.

Lemma ready_closed_at_most_once_witness :
  NoDup [0%nat; 1%nat] /\
  (forall e, In e ([mkElement 2 (mkWaiter 3 2%nat)] ++ []) ->
             ~ In (ready (Value e)) [0%nat; 1%nat]).
Proof.
  exact (ready_closed_at_most_once 3
           [OpTryAcquire 3; OpAcquire 1; OpAcquire 2; OpAcquire 3; OpRelease 3]
           (mkWorld (mkWeighted 3 3 [mkElement 2 (mkWaiter 3 2%nat)] [])
              3 3 [0%nat; 1%nat]
              [mkCall RefWaiters 0 0%nat; mkCall RefWaiters 1 1%nat;
               mkCall RefWaiters 2 2%nat] [])
           eq_refl).
Defined.

(** In every interleaving, a waiting record is held once: no two elements
    of the wait queue and the impossible list, taken together, carry the
    same [ready] channel, so a record is never in both lists and a move by
    [Resize] never leaves a copy behind. *)
Theorem waiting_record_held_once (k : Z) (os : list op) (w : World) :
  run (init k) os = Ok w ->
  NoDup (map (fun e => ready (Value e))
           (waiters (sem w) ++ impossibleWaiters (sem w))).
Proof.
  intros E.
  destruct (channels_distinct_run os _ _ (channels_distinct_init k) E)
    as [Hd _].
  unfold channels, channels_of in Hd. apply NoDup_app_remove_l in Hd.
  unfold records in Hd. now rewrite <- map_app, map_map in Hd.
Qed.

Lemma waiting_record_held_once_witness :
  NoDup (map (fun e => ready (Value e))
           ([mkElement 4 (mkWaiter 2 0%nat); mkElement 5 (mkWaiter 2 1%nat)] ++
            [mkElement 6 (mkWaiter 5 2%nat)])).
Proof.
  exact (waiting_record_held_once 3
           [OpTryAcquire 3; OpAcquire 2; OpAcquire 2; OpResize 1; OpResize 4;
            OpCtxDone 0%nat; OpAcquire 5]
           (mkWorld (mkWeighted 4 3
                       [mkElement 4 (mkWaiter 2 0%nat);
                        mkElement 5 (mkWaiter 2 1%nat)]
                       [mkElement 6 (mkWaiter 5 2%nat)])
              7 3 []
              [mkCall RefWaiters 1 1%nat; mkCall RefImpossible 6 2%nat]
              [(0%nat, RetCtxErr)])
           eq_refl).
Defined.

(** ** What the allocators have handed out *)

Lemma realloc_handles (l : list waiter) : forall f,
  Forall (fun e => (f <= handle e < f + List.length l)%nat) (realloc f l).
Proof.
  induction l as [| x l IH]; intros f; simpl; constructor.
  - simpl. lia.
  - eapply Forall_impl; [| apply (IH (S f))]. simpl. intros; lia.
Qed.

Lemma Forall_filter_keep (A : Type) (P : A -> Prop) (b : A -> bool)
    (l : list A) :
  Forall P l -> Forall P (filter b l).
Proof.
  rewrite !Forall_forall. intros H x Hx. apply filter_In in Hx. now apply H.
Qed.

Lemma allocated_step (w w' : World) (o : op) :
  allocated w -> step w o = Ok w' ->
  allocated w' /\
  (nextElem w <= nextElem w')%nat /\ (nextChan w <= nextChan w')%nat.
Proof.
  intros [He Hb]. apply Forall_app in He. destruct He as [Hw Hi].
  unfold allocated.
  destruct o as [k | k | c | c | k | k]; simpl.
  - intros E. inversion E; subst; clear E. simpl.
    split; [| lia]. split; [| exact Hb].
    unfold TryAcquire. destruct (_ && _); simpl; apply Forall_app; tauto.
  - destruct (admits (sem w) k) eqn:Ha.
    + unfold Acquire. fold (admits (sem w) k). rewrite Ha.
      intros E. inversion E; subst; clear E. simpl.
      split; [| lia]. split; [| exact Hb]. apply Forall_app; tauto.
    + rewrite Acquire_slow_path by assumption.
      assert (Hw' : Forall (fun e => (handle e < S (nextElem w))%nat) (waiters (sem w)))
        by (eapply Forall_impl; [| exact Hw]; simpl; intros; lia).
      assert (Hi' : Forall (fun e => (handle e < S (nextElem w))%nat)
                      (impossibleWaiters (sem w)))
        by (eapply Forall_impl; [| exact Hi]; simpl; intros; lia).
      assert (Hb' : Forall (fun c => (c_ready c < S (nextChan w))%nat)
                      (blocked w ++ [mkCall RefWaiters (nextElem w) (nextChan w)]) /\
                    Forall (fun c => (c_ready c < S (nextChan w))%nat)
                      (blocked w ++ [mkCall RefImpossible (nextElem w) (nextChan w)])).
      { split; apply Forall_app; split;
          try (eapply Forall_impl; [| exact Hb]; simpl; intros; lia);
          constructor; simpl; try lia; constructor. }
      destruct (k >? size (sem w)); intros E; inversion E; subst; clear E;
        simpl; (split; [| lia]); (split; [| tauto]);
        repeat (apply Forall_app; split); try assumption;
        constructor; simpl; try lia; constructor.
  - destruct (find_call w c); [| discriminate].
    destruct (is_closed w c); [| discriminate].
    intros E. inversion E; subst; clear E. simpl.
    split; [| lia]. split; [apply Forall_app; tauto |].
    now apply Forall_filter_keep.
  - destruct (find_call w c) as [cl |]; [| discriminate].
    unfold Acquire_ctxDone. destruct (is_closed w c);
      intros E; inversion E; subst; clear E; simpl;
      (split; [| lia]); (split; [| now apply Forall_filter_keep]).
    + apply Forall_app; tauto.
    + destruct (c_list cl); simpl; apply Forall_app; split;
        try assumption; now apply Forall_Remove.
  - destruct (Release (sem w) k) as [[s' cl] |] eqn:ER; [| discriminate].
    intros E. inversion E; subst; clear E. simpl.
    destruct (Release_effect _ _ _ _ ER) as (g & _ & Hq & _ & _ & _ & _ & _ & Hi').
    split; [| lia]. split; [| exact Hb].
    rewrite Hq in Hw. apply Forall_app in Hw. rewrite Hi'.
    apply Forall_app; tauto.
  - destruct (Resize (sem w) (nextElem w) k) as [[[s' f'] cl] |] eqn:ER;
      [| discriminate].
    intros E. inversion E; subst; clear E. simpl.
    destruct (Z.lt_ge_cases k 0) as [Hneg | Hk].
    { rewrite Resize_panics in ER by assumption. discriminate. }
    rewrite (Resize_explicit _ _ _ Hk) in ER. cbv zeta in ER.
    match type of ER with
    | context [Release_loop k (cur (sem w)) ?q] =>
        destruct (Release_loop_prefix k q (cur (sem w)))
          as (g & rest & Hq & Hl & _);
        rewrite Hl in ER;
        assert (Hall : Forall
                         (fun e => (handle e < nextElem w +
                            List.length (filter (fits k) (records (impossibleWaiters (sem w)))) +
                            List.length (filter (exceeds k) (records (waiters (sem w)))))%nat)
                         q)
    end.
    { apply Forall_app; split.
      - apply Forall_filter_keep. eapply Forall_impl; [| exact Hw].
        simpl. intros; lia.
      - eapply Forall_impl; [| apply realloc_handles]. simpl. intros; lia. }
    inversion ER; subst; clear ER. simpl.
    split; [| lia]. split; [| exact Hb].
    rewrite Hq in Hall. apply Forall_app in Hall. destruct Hall as [_ Hrest].
    apply Forall_app; split; [exact Hrest |].
    apply Forall_app; split.
    + apply Forall_filter_keep. eapply Forall_impl; [| exact Hi].
      simpl. intros; lia.
    + eapply Forall_impl; [| apply realloc_handles]. simpl. intros; lia.
Qed.

Lemma allocated_run (os : list op) : forall w0 w,
  allocated w0 -> run w0 os = Ok w -> allocated w.
Proof.
  induction os as [| o os IH]; intros w0 w Ha; simpl.
  - intros E. now inversion E; subst.
  - destruct (step w0 o) as [w1 | |] eqn:Es; try discriminate.
    apply IH. now destruct (allocated_step _ _ _ Ha Es).
Qed.

Lemma allocated_init (k : Z) : allocated (init k).
Proof. split; constructor. Qed.

(** ** Cancellation right after blocking *)

Lemma Remove_PushBack (l : List) (h : nat) (v : waiter) :
  Forall (fun e => (handle e < h)%nat) l ->
  Remove (PushBack l h v) h = l.
Proof.
  unfold PushBack. induction 1 as [| x l Hx _ IH]; simpl.
  - now rewrite Nat.eqb_refl.
  - destruct (Nat.eqb_spec (handle x) h); [lia |]. now rewrite IH.
Qed.

Lemma find_call_last (bs : list call) (k : call) :
  Forall (fun b => (c_ready b < c_ready k)%nat) bs ->
  find (fun b => Nat.eqb (c_ready b) (c_ready k)) (bs ++ [k]) = Some k /\
  filter (fun b => negb (Nat.eqb (c_ready b) (c_ready k))) (bs ++ [k]) = bs.
Proof.
  induction 1 as [| x l Hx _ [IH1 IH2]]; simpl.
  - now rewrite Nat.eqb_refl.
  - destruct (Nat.eqb_spec (c_ready x) (c_ready k)); [lia |]. simpl.
    now rewrite IH1, IH2.
Qed.

Lemma not_closed_fresh (w : World) :
  channels_distinct w -> is_closed w (nextChan w) = false.
Proof.
  intros [_ Hf]. unfold is_closed.
  destruct (existsb (Nat.eqb (nextChan w)) (closed w)) eqn:E; [| reflexivity].
  apply existsb_exists in E. destruct E as (c & Hin & Hc).
  apply Nat.eqb_eq in Hc. subst c.
  unfold channels, channels_of in Hf. apply Forall_app in Hf.
  destruct Hf as [Hf _]. rewrite Forall_forall in Hf. apply Hf in Hin. lia.
Qed.

Lemma step_cancel_last (s1 : Weighted) (ne nc : nat) (cl : list chan)
    (bs : list call) (rt : list (chan * verdict))
    (l : listRef) (e : nat) (c : chan) :
  Forall (fun b => (c_ready b < c)%nat) bs ->
  existsb (Nat.eqb c) cl = false ->
  step (mkWorld s1 ne nc cl (bs ++ [mkCall l e c]) rt) (OpCtxDone c) =
  Ok (mkWorld (setList s1 l (Remove (getList s1 l) e)) ne nc cl bs
        (rt ++ [(c, RetCtxErr)])).
Proof.
  intros Hb Hc.
  destruct (find_call_last bs (mkCall l e c) Hb) as [Hf Hd]. simpl in Hf, Hd.
  unfold step, find_call, drop_call, is_closed. simpl.
  rewrite Hf, Hd, Hc. reflexivity.
Qed.

Lemma Acquire_then_Remove (s : Weighted) (h : nat) (c : chan) (k : Z) :
  admits s k = false ->
  Forall (fun e => (handle e < h)%nat) (waiters s ++ impossibleWaiters s) ->
  exists s1 l,
    Acquire s h c k = (s1, Waiting l h c) /\
    setList s1 l (Remove (getList s1 l) h) = s.
Proof.
  intros Ha He. apply Forall_app in He. destruct He as [Hw Hi].
  rewrite Acquire_slow_path by assumption.
  destruct (k >? size s); eexists _, _; (split; [reflexivity |]); simpl.
  - fold (PushBack (impossibleWaiters s) h (mkWaiter k c)).
    rewrite Remove_PushBack by exact Hi. now destruct s.
  - fold (PushBack (waiters s) h (mkWaiter k c)).
    rewrite Remove_PushBack by exact Hw. now destruct s.
Qed.

(** In every interleaving: when an [Acquire] blocks and its context is
    canceled before any other call takes the mutex, the call returns the
    context's error and the semaphore, the closed channels and the other
    blocked calls are exactly what they were before the [Acquire]: the
    record it enqueued is the one it removes. *)
Theorem cancel_right_after_blocking
    (k0 : Z) (os : list op) (w : World) (k : Z) :
  run (init k0) os = Ok w ->
  admits (sem w) k = false ->
  run w [OpAcquire k; OpCtxDone (nextChan w)] =
  Ok (mkWorld (sem w) (S (nextElem w)) (S (nextChan w)) (closed w)
        (blocked w) (returned w ++ [(nextChan w, RetCtxErr)])).
Proof.
  intros E Ha.
  destruct (allocated_run os _ _ (allocated_init k0) E) as [He Hb].
  pose proof (not_closed_fresh w
                (channels_distinct_run os _ _ (channels_distinct_init k0) E))
    as Hnc.
  destruct (Acquire_then_Remove (sem w) (nextElem w) (nextChan w) k Ha He)
    as (s1 & l & E1 & E2).
  cbn [run]. unfold step at 1. rewrite E1.
  rewrite step_cancel_last by assumption.
  now rewrite E2.
Qed.

Lemma cancel_right_after_blocking_witness :
  run (mkWorld (mkWeighted 2 2 [mkElement 0 (mkWaiter 1 0%nat)] [])
         1 1 [] [mkCall RefWaiters 0 0%nat] [])
    [OpAcquire 5; OpCtxDone 1%nat] =
  Ok (mkWorld (mkWeighted 2 2 [mkElement 0 (mkWaiter 1 0%nat)] [])
        2 2 [] [mkCall RefWaiters 0 0%nat] [(1%nat, RetCtxErr)]).
Proof.
  exact (cancel_right_after_blocking 2 [OpTryAcquire 2; OpAcquire 1]
           (mkWorld (mkWeighted 2 2 [mkElement 0 (mkWaiter 1 0%nat)] [])
              1 1 [] [mkCall RefWaiters 0 0%nat] [])
           5 eq_refl eq_refl).
Defined.

(** ** A blocked call that returns nil was granted *)

Lemma is_closed_In (w : World) (c : chan) :
  is_closed w c = true <-> In c (closed w).
Proof.
  unfold is_closed. rewrite existsb_exists. split.
  - intros (x & Hin & Hx). apply Nat.eqb_eq in Hx. now subst.
  - intros Hin. exists c. split; [exact Hin | apply Nat.eqb_refl].
Qed.

Lemma closed_grows (w w' : World) (o : op) :
  step w o = Ok w' -> incl (closed w) (closed w').
Proof.
  destruct o as [k | k | c | c | k | k]; simpl.
  - intros E. inversion E; subst. apply incl_refl.
  - destruct (Acquire (sem w) (nextElem w) (nextChan w) k) as [s' [| l e c]];
      intros E; inversion E; subst; apply incl_refl.
  - destruct (find_call w c); [| discriminate].
    destruct (is_closed w c); [| discriminate].
    intros E. inversion E; subst. apply incl_refl.
  - destruct (find_call w c) as [b |]; [| discriminate].
    destruct (Acquire_ctxDone _ _ _ _) as [s' v].
    intros E. inversion E; subst. apply incl_refl.
  - destruct (Release (sem w) k) as [[s' cl] |]; [| discriminate].
    intros E. inversion E; subst. simpl. apply incl_appl, incl_refl.
  - destruct (Resize (sem w) (nextElem w) k) as [[[s' f'] cl] |];
      [| discriminate].
    intros E. inversion E; subst. simpl. apply incl_appl, incl_refl.
Qed.

Lemma nil_was_granted_step (w w' : World) (o : op) :
  (forall c, In (c, RetNil) (returned w) -> In c (closed w)) ->
  step w o = Ok w' ->
  forall c, In (c, RetNil) (returned w') -> In c (closed w').
Proof.
  intros Hinv Es c Hin. pose proof (closed_grows _ _ _ Es) as Hg.
  destruct o as [k | k | c0 | c0 | k | k]; simpl in Es.
  - inversion Es; subst. simpl in *. auto.
  - destruct (Acquire (sem w) (nextElem w) (nextChan w) k) as [s' [| l e c1]];
      inversion Es; subst; simpl in *; auto.
  - destruct (find_call w c0); [| discriminate].
    destruct (is_closed w c0) eqn:Hc; [| discriminate].
    inversion Es; subst. simpl in *.
    apply in_app_or in Hin. destruct Hin as [Hin | [Hin | []]]; [auto |].
    inversion Hin; subst. now apply is_closed_In.
  - destruct (find_call w c0) as [b |]; [| discriminate].
    unfold Acquire_ctxDone in Es.
    destruct (is_closed w c0) eqn:Hc; inversion Es; subst; simpl in *;
      apply in_app_or in Hin; destruct Hin as [Hin | [Hin | []]]; auto.
    + inversion Hin; subst. now apply is_closed_In.
    + discriminate.
  - destruct (Release (sem w) k) as [[s' cl] |]; [| discriminate].
    inversion Es; subst. simpl in *. apply Hg. auto.
  - destruct (Resize (sem w) (nextElem w) k) as [[[s' f'] cl] |];
      [| discriminate].
    inversion Es; subst. simpl in *. apply Hg. auto.
Qed.

Lemma nil_was_granted_run (os : list op) : forall w0 w,
  (forall c, In (c, RetNil) (returned w0) -> In c (closed w0)) ->
  run w0 os = Ok w ->
  forall c, In (c, RetNil) (returned w) -> In c (closed w).
Proof.
  induction os as [| o os IH]; intros w0 w Hinv; simpl.
  - intros E. now inversion E; subst.
  - destruct (step w0 o) as [w1 | |] eqn:Es; try discriminate.
    apply IH. eapply nil_was_granted_step; eauto.
Qed.

(** In every interleaving, a blocked [Acquire] that has returned nil had its
    [ready] channel closed by a [Release] or a [Resize], which added its
    weight to [cur]: no call leaves the [select] with success without
    having been granted, whichever branch of the [select] it took. *)
Theorem nil_only_after_grant
    (k : Z) (os : list op) (w : World) (c : chan) :
  run (init k) os = Ok w ->
  In (c, RetNil) (returned w) -> In c (closed w).
Proof.
  intros E. apply (nil_was_granted_run os (init k) w); [| exact E].
  simpl. intros c0 [].
Qed.

Lemma nil_only_after_grant_witness : In 0%nat [0%nat].
Proof.
  exact (nil_only_after_grant 1
           [OpTryAcquire 1; OpAcquire 1; OpRelease 1; OpCtxDone 0%nat]
           (mkWorld (mkWeighted 1 1 [] []) 1 1 [0%nat] [] [(0%nat, RetNil)])
           0%nat eq_refl (or_introl eq_refl)).
Defined.

(** ** Cancellation in programs without [Resize] *)

Lemma Remove_cases (l : List) (h : nat) :
  (~ In h (map handle l) /\ Remove l h = l) \/
  exists l1 x l2, l = l1 ++ x :: l2 /\ handle x = h /\ Remove l h = l1 ++ l2.
Proof.
  induction l as [| y r IH]; simpl; [left; tauto |].
  destruct (Nat.eqb_spec (handle y) h) as [E | E].
  - right. exists [], y, r. auto.
  - destruct IH as [[Hn Hr] | (l1 & x & l2 & E1 & E2 & E3)].
    + left. rewrite Hr. split; [| reflexivity]. intros [H | H]; tauto.
    + right. exists (y :: l1), x, l2. simpl. rewrite E3, E1. auto.
Qed.

Lemma NoDup_map_inj (A B : Type) (f : A -> B) (l : list A) (a b : A) :
  NoDup (map f l) -> In a l -> In b l -> f a = f b -> a = b.
Proof.
  induction l as [| x l IH]; simpl; [tauto |].
  intros Hd Ha Hb E. inversion Hd as [| ? ? Hn Hd']; subst.
  destruct Ha as [-> | Ha], Hb as [-> | Hb]; auto.
  - exfalso. apply Hn. rewrite E. now apply in_map.
  - exfalso. apply Hn. rewrite <- E. now apply in_map.
Qed.

(** Dropping calls keeps the remaining ones distinct in any of their
    fields. *)
Lemma NoDup_map_filter (K : Type) (key : call -> K) (keep : call -> bool)
    (bs : list call) (Hd : NoDup (map key bs)) :
  NoDup (map key (filter keep bs)).
Proof.
  induction bs as [| b bs IH]; simpl in *; [exact Hd |].
  inversion Hd as [| ? ? Hn Hd']; subst.
  destruct (keep b); simpl; [| auto]. constructor; [| auto].
  intros Hin. apply Hn. apply in_map_iff in Hin.
  destruct Hin as (y & Ey & Hy). apply filter_In in Hy.
  rewrite <- Ey. apply in_map. tauto.
Qed.

Lemma NoDup_snoc (A : Type) (l : list A) (a : A) :
  NoDup l -> ~ In a l -> NoDup (l ++ [a]).
Proof.
  intros Hd Hn. apply NoDup_app; [exact Hd | repeat constructor; simpl; tauto |].
  intros x Hx [-> | []]. tauto.
Qed.

Lemma find_call_In (w : World) (c : chan) (b : call) :
  find_call w c = Some b -> In b (blocked w) /\ c_ready b = c.
Proof.
  unfold find_call. intros H. apply find_some in H.
  destruct H as [Hin Hc]. apply Nat.eqb_eq in Hc. tauto.
Qed.

Lemma waiting_in_channels (w : World) (L : listRef) (x : Element) :
  In x (getList (sem w) L) ->
  In (ready (Value x))
     (map ready (records (waiters (sem w)) ++
                 records (impossibleWaiters (sem w)))).
Proof.
  intros H. unfold records. rewrite <- map_app, map_map.
  apply (in_map (fun e => ready (Value e))). apply in_or_app.
  destruct L; simpl in H; tauto.
Qed.

Lemma in_channels_waiting (w : World) (c : chan) :
  In c (map ready (records (waiters (sem w)) ++
                   records (impossibleWaiters (sem w)))) ->
  exists L x, In x (getList (sem w) L) /\ ready (Value x) = c.
Proof.
  unfold records. rewrite <- map_app, map_map. intros H.
  apply in_map_iff in H. destruct H as (x & E & Hin).
  apply in_app_or in Hin. destruct Hin as [Hin | Hin].
  - exists RefWaiters, x. tauto.
  - exists RefImpossible, x. tauto.
Qed.

Lemma waiting_not_closed (w : World) (L : listRef) (x : Element) (c : chan) :
  channels_distinct w -> In x (getList (sem w) L) -> In c (closed w) ->
  ready (Value x) <> c.
Proof.
  intros [Hd _] Hx Hc E. unfold channels, channels_of in Hd.
  apply (NoDup_app_disjoint _ _ c Hd Hc). rewrite <- E.
  eapply waiting_in_channels; eauto.
Qed.

Lemma getList_ready_NoDup (w : World) (L : listRef) :
  channels_distinct w ->
  NoDup (map (fun e => ready (Value e)) (getList (sem w) L)).
Proof.
  intros [Hd _]. unfold channels, channels_of in Hd.
  apply NoDup_app_remove_l in Hd. unfold records in Hd.
  rewrite <- map_app, map_map, map_app in Hd.
  destruct L; simpl.
  - eapply NoDup_app_remove_r; eauto.
  - eapply NoDup_app_remove_l; eauto.
Qed.

Lemma tidy_shrink (w w' : World) :
  tidy w ->
  (forall L x, In x (getList (sem w') L) -> In x (getList (sem w) L)) ->
  incl (channels w') (channels w) ->
  blocked w' = blocked w -> returned w' = returned w ->
  (nextElem w <= nextElem w')%nat -> (nextChan w <= nextChan w')%nat ->
  tidy w'.
Proof.
  intros (T1 & T2 & T3 & T4 & T5 & T6) Hl Hc Hb Hr He Hn.
  unfold tidy. rewrite Hb, Hr. repeat split; auto.
  - eapply Forall_impl; [| exact T4]. simpl. intros; lia.
  - eapply Forall_impl; [| exact T5]. simpl. intros; lia.
  - intros c Hin Hch. apply (T6 c Hin). now apply Hc.
Qed.

Lemma tidy_drop (w : World) (c0 : chan) (b : call) :
  tidy w -> channels_distinct w -> allocated w ->
  find_call w c0 = Some b -> is_closed w c0 = true ->
  tidy (mkWorld (sem w) (nextElem w) (nextChan w) (closed w)
          (drop_call w c0) (returned w ++ [(c0, RetNil)])).
Proof.
  intros (T1 & T2 & T3 & T4 & T5 & T6) Hd [_ Ha2] Hf Hc.
  apply find_call_In in Hf. destruct Hf as [Hbin Hbc].
  apply is_closed_In in Hc.
  unfold tidy, drop_call. simpl. repeat split.
  - intros L x Hx. apply filter_In. split; [now apply T1 |]. simpl.
    apply negb_true_iff, Nat.eqb_neq.
    eapply waiting_not_closed; eauto.
  - now apply NoDup_map_filter.
  - now apply NoDup_map_filter.
  - now apply Forall_filter_keep.
  - apply Forall_app. split; [exact T5 |]. constructor; [| constructor].
    simpl. rewrite Forall_forall in Ha2. rewrite <- Hbc. now apply Ha2.
  - intros c Hin. apply in_app_or in Hin.
    destruct Hin as [Hin | [Hin | []]]; [now apply T6 | discriminate].
Qed.

Lemma tidy_enqueue (w : World) (l : listRef) (k : Z) :
  tidy w -> channels_distinct w -> allocated w ->
  tidy (mkWorld
          (setList (sem w) l
             (PushBack (getList (sem w) l) (nextElem w)
                (mkWaiter k (nextChan w))))
          (S (nextElem w)) (S (nextChan w)) (closed w)
          (blocked w ++ [mkCall l (nextElem w) (nextChan w)]) (returned w)).
Proof.
  intros (T1 & T2 & T3 & T4 & T5 & T6) [Hd Hf] [_ Ha2].
  unfold tidy. simpl. repeat split.
  - intros L x Hx. apply in_or_app.
    destruct l, L; simpl in Hx; unfold PushBack in Hx;
      try (left; apply T1; exact Hx);
      (apply in_app_or in Hx; destruct Hx as [Hx | [<- | []]];
       [left; apply T1; exact Hx | right; simpl; now left]).
  - rewrite map_app. simpl. apply NoDup_snoc; [exact T2 |].
    intros Hin. apply in_map_iff in Hin. destruct Hin as (b & E & Hb).
    rewrite Forall_forall in T4. apply T4 in Hb. lia.
  - rewrite map_app. simpl. apply NoDup_snoc; [exact T3 |].
    intros Hin. apply in_map_iff in Hin. destruct Hin as (b & E & Hb).
    rewrite Forall_forall in Ha2. apply Ha2 in Hb. lia.
  - apply Forall_app. split.
    + eapply Forall_impl; [| exact T4]. simpl. intros; lia.
    + constructor; [simpl; lia | constructor].
  - eapply Forall_impl; [| exact T5]. simpl. intros; lia.
  - intros c Hin Hch.
    assert (Hlt : (c < nextChan w)%nat).
    { rewrite Forall_forall in T5. apply (T5 _ Hin). }
    apply (T6 c Hin). unfold channels, channels_of in *. simpl in Hch.
    apply in_app_or in Hch. apply in_or_app.
    destruct Hch as [Hch | Hch]; [now left | right].
    unfold records in *. rewrite <- map_app, map_map in *.
    apply in_map_iff in Hch. destruct Hch as (x & E & Hx).
    apply in_map_iff.
    destruct l; simpl in Hx; unfold PushBack in Hx;
      rewrite ?in_app_iff in Hx; simpl in Hx;
      destruct Hx as [Hx | Hx];
      try (destruct Hx as [Hx | Hx]);
      try (destruct Hx as [<- | []]; simpl in E; lia);
      try (exists x; split; [exact E | apply in_or_app; tauto]).
Qed.

Lemma getList_setList (s : Weighted) (L : listRef) (l : List) :
  getList (setList s L l) L = l.
Proof. now destruct L. Qed.

(** The element that a blocked call holds, when no record was moved, is
    the only one that carries its channel: removing it leaves no record
    with that channel. *)
Lemma cancel_removes_the_record (w : World) (c0 : chan) (b : call) :
  tidy w -> channels_distinct w ->
  find_call w c0 = Some b ->
  forall L y,
    In y (getList
            (setList (sem w) (c_list b)
               (Remove (getList (sem w) (c_list b)) (c_elem b))) L) ->
    In y (getList (sem w) L) /\ ready (Value y) <> c0.
Proof.
  intros (T1 & T2 & T3 & _) Hd Hf L y Hy.
  apply find_call_In in Hf. destruct Hf as [Hbin Hbc].
  assert (Hy0 : In y (getList (sem w) L)).
  { destruct (c_list b), L; simpl in Hy; try exact Hy;
      eapply Remove_incl; eauto. }
  split; [exact Hy0 |]. intros E.
  pose proof (T1 L y Hy0) as Hcy. rewrite E in Hcy.
  assert (Eb : mkCall L (handle y) c0 = b).
  { apply (NoDup_map_inj _ _ c_ready (blocked w)); auto. }
  subst b. simpl in Hy. rewrite getList_setList in Hy.
  destruct (Remove_cases (getList (sem w) L) (handle y))
    as [[Hn _] | (l1 & x0 & l2 & E1 & E2 & E3)].
  - apply Hn. now apply in_map.
  - rewrite E3 in Hy.
    assert (Hx0 : In x0 (getList (sem w) L))
      by (rewrite E1; apply in_or_app; right; now left).
    pose proof (T1 L x0 Hx0) as Hcx.
    assert (Ex : mkCall L (handle x0) (ready (Value x0)) =
                 mkCall L (handle y) c0).
    { apply (NoDup_map_inj _ _ c_elem (blocked w)); auto. }
    inversion Ex as [[Eh Er]].
    pose proof (getList_ready_NoDup w L Hd) as Hnd.
    rewrite E1, map_app in Hnd. simpl in Hnd.
    apply NoDup_remove_2 in Hnd. apply Hnd.
    rewrite <- map_app, Er, <- E.
    now apply (in_map (fun e => ready (Value e))).
Qed.

Lemma tidy_cancel (w : World) (c0 : chan) (b : call) :
  tidy w -> channels_distinct w -> allocated w ->
  find_call w c0 = Some b -> is_closed w c0 = false ->
  tidy (mkWorld
          (setList (sem w) (c_list b)
             (Remove (getList (sem w) (c_list b)) (c_elem b)))
          (nextElem w) (nextChan w) (closed w)
          (drop_call w c0) (returned w ++ [(c0, RetCtxErr)])).
Proof.
  intros Ht Hd Ha Hf Hc.
  pose proof (cancel_removes_the_record w c0 b Ht Hd Hf) as K.
  destruct Ht as (T1 & T2 & T3 & T4 & T5 & T6). destruct Ha as [_ Ha2].
  pose proof (find_call_In _ _ _ Hf) as [Hbin Hbc].
  set (s' := setList (sem w) (c_list b)
               (Remove (getList (sem w) (c_list b)) (c_elem b))) in *.
  assert (Hch : forall c,
             In c (channels (mkWorld s' (nextElem w) (nextChan w) (closed w)
                              (drop_call w c0)
                              (returned w ++ [(c0, RetCtxErr)]))) ->
             In c (channels w) /\ c <> c0).
  { intros c Hin. unfold channels, channels_of in Hin. simpl in Hin.
    apply in_app_or in Hin. destruct Hin as [Hin | Hin].
    - split.
      + unfold channels, channels_of. apply in_or_app. now left.
      + intros ->. apply is_closed_In in Hin. congruence.
    - apply (in_channels_waiting
               (mkWorld s' (nextElem w) (nextChan w) (closed w)
                  (drop_call w c0) (returned w ++ [(c0, RetCtxErr)]))) in Hin.
      destruct Hin as (L & x & Hx & Ex). simpl in Hx.
      destruct (K L x Hx) as [Hx0 Hne]. split; [| congruence].
      unfold channels, channels_of. apply in_or_app. right.
      rewrite <- Ex. eapply waiting_in_channels; eauto. }
  unfold tidy, drop_call. simpl. repeat split.
  - intros L x Hx. destruct (K L x Hx) as [Hx0 Hne].
    apply filter_In. split; [now apply T1 |]. simpl.
    now apply negb_true_iff, Nat.eqb_neq.
  - now apply NoDup_map_filter.
  - now apply NoDup_map_filter.
  - now apply Forall_filter_keep.
  - apply Forall_app. split; [exact T5 |]. constructor; [| constructor].
    simpl. rewrite Forall_forall in Ha2. rewrite <- Hbc. now apply Ha2.
  - intros c Hin Hc'. apply Hch in Hc'. destruct Hc' as [Hc1 Hc2].
    apply in_app_or in Hin. destruct Hin as [Hin | [Hin | []]].
    + now apply (T6 c).
    + inversion Hin. congruence.
Qed.

Lemma tidy_step (w w' : World) (o : op) :
  tidy w -> channels_distinct w -> allocated w ->
  is_Resize o = false -> step w o = Ok w' -> tidy w'.
Proof.
  intros Ht Hd Ha Ho.
  destruct o as [k | k | c | c | k | k]; simpl; try discriminate.
  - intros E. inversion E; subst; clear E.
    apply (tidy_shrink w); simpl; auto.
    + intros L x. unfold TryAcquire. destruct (_ && _); destruct L; auto.
    + unfold channels, channels_of. simpl. unfold TryAcquire.
      destruct (_ && _); apply incl_refl.
  - destruct (admits (sem w) k) eqn:Had.
    + unfold Acquire. fold (admits (sem w) k). rewrite Had.
      intros E. inversion E; subst; clear E.
      apply (tidy_shrink w); simpl; auto; try apply incl_refl;
        try (intros L x; destruct L; auto).
    + rewrite Acquire_slow_path by assumption.
      destruct (k >? size (sem w)); intros E; inversion E; subst; clear E.
      * apply (tidy_enqueue w RefImpossible k); assumption.
      * apply (tidy_enqueue w RefWaiters k); assumption.
  - destruct (find_call w c) as [b |] eqn:Hf; [| discriminate].
    destruct (is_closed w c) eqn:Hc; [| discriminate].
    intros E. inversion E; subst; clear E. eapply tidy_drop; eauto.
  - destruct (find_call w c) as [b |] eqn:Hf; [| discriminate].
    unfold Acquire_ctxDone. destruct (is_closed w c) eqn:Hc;
      intros E; inversion E; subst; clear E.
    + eapply tidy_drop; eauto.
    + now apply tidy_cancel.
  - destruct (Release (sem w) k) as [[s' cl] |] eqn:ER; [| discriminate].
    intros E. inversion E; subst; clear E.
    destruct (Release_effect _ _ _ _ ER) as (g & _ & Hq & _ & _ & _ & _ & _ & Hi).
    apply (tidy_shrink w); simpl; auto.
    + intros L x Hx. destruct L; simpl in *.
      * rewrite Hq. apply in_or_app. now right.
      * now rewrite <- Hi.
    + unfold channels. simpl.
      rewrite (channels_of_Release _ _ _ _ _ ER). apply incl_refl.
Qed.

Lemma tidy_run (os : list op) : forall w0 w,
  tidy w0 -> channels_distinct w0 -> allocated w0 ->
  no_Resize os = true -> run w0 os = Ok w -> tidy w.
Proof.
  induction os as [| o os IH]; intros w0 w Ht Hd Ha Hn; simpl.
  - intros E. now inversion E; subst.
  - simpl in Hn. apply andb_true_iff in Hn. destruct Hn as [Ho Hn].
    apply negb_true_iff in Ho.
    destruct (step w0 o) as [w1 | |] eqn:Es; try discriminate.
    apply IH; try assumption.
    + eapply tidy_step; eauto.
    + eapply channels_distinct_step; eauto.
    + now destruct (allocated_step _ _ _ Ha Es).
Qed.

Lemma tidy_init (k : Z) : tidy (init k).
Proof.
  unfold tidy. simpl. repeat split; try constructor.
  - intros L x. destruct L; simpl; tauto.
  - intros c [].
Qed.

(** In a program that never calls [Resize], a waiter that was told it was
    canceled is never granted: in every state reached, the [ready]
    channel of a call that returned the context's error has not been
    closed, and no record in the wait queue or in the impossible list
    carries it, so no later [Release] can close it either. *)
Theorem canceled_never_granted_without_Resize
    (k : Z) (os : list op) (w : World) (c : chan) :
  no_Resize os = true ->
  run (init k) os = Ok w ->
  In (c, RetCtxErr) (returned w) ->
  ~ In c (closed w) /\
  (forall x, In x (waiters (sem w) ++ impossibleWaiters (sem w)) ->
             ready (Value x) <> c).
Proof.
  intros Hn E Hin.
  destruct (tidy_run os _ _ (tidy_init k) (channels_distinct_init k)
              (allocated_init k) Hn E) as (_ & _ & _ & _ & _ & T6).
  pose proof (T6 c Hin) as Hc. unfold channels, channels_of in Hc. split.
  - intros H. apply Hc. apply in_or_app. now left.
  - intros x Hx Ex. apply Hc. apply in_or_app. right. rewrite <- Ex.
    apply in_app_or in Hx. destruct Hx as [Hx | Hx].
    + now apply (waiting_in_channels w RefWaiters).
    + now apply (waiting_in_channels w RefImpossible).
Qed.

Lemma canceled_never_granted_without_Resize_witness :
  ~ In 1%nat [0%nat] /\
  (forall x, In x ([] ++ [mkElement 2 (mkWaiter 9 2%nat)]) ->
             ready (Value x) <> 1%nat).
Proof.
  exact (canceled_never_granted_without_Resize 2
           [OpTryAcquire 2; OpAcquire 1; OpAcquire 2; OpAcquire 9;
            OpCtxDone 1%nat; OpRelease 2; OpReady 0%nat; OpRelease 1]
           (mkWorld (mkWeighted 2 0 [] [mkElement 2 (mkWaiter 9 2%nat)])
              3 3 [0%nat] [mkCall RefImpossible 2 2%nat]
              [(1%nat, RetCtxErr); (0%nat, RetNil)])
           1%nat eq_refl eq_refl (or_introl eq_refl)).
Defined.

(** In a program that never calls [Resize], the two lists hold no stale
    record: every element in them is the element, in the list, that a
    call still blocked in its [select] holds, with that call's channel;
    so [Waiters()] never counts a call that has returned. *)
Theorem no_stale_record_without_Resize
    (k : Z) (os : list op) (w : World) (L : listRef) (x : Element) :
  no_Resize os = true ->
  run (init k) os = Ok w ->
  In x (getList (sem w) L) ->
  In (mkCall L (handle x) (ready (Value x))) (blocked w) /\
  ~ In (ready (Value x)) (map fst (returned w)).
Proof.
  intros Hn E Hx.
  pose proof (channels_distinct_run os _ _ (channels_distinct_init k) E) as Hd.
  destruct (tidy_run os _ _ (tidy_init k) (channels_distinct_init k)
              (allocated_init k) Hn E)
    as (T1 & _ & _ & _ & _ & T6).
  split; [now apply T1 |].
  intros Hin. apply in_map_iff in Hin. destruct Hin as ([c v] & Ec & Hr).
  simpl in Ec. subst c. destruct v.
  - assert (Hcl : In (ready (Value x)) (closed w)).
    { apply (nil_was_granted_run os (init k) w); auto. }
    exact (waiting_not_closed w L x _ Hd Hx Hcl eq_refl).
  - apply (T6 _ Hr). unfold channels, channels_of. apply in_or_app. right.
    eapply waiting_in_channels; eauto.
Qed.

Lemma no_stale_record_without_Resize_witness :
  In (mkCall RefImpossible 2 2%nat) [mkCall RefImpossible 2 2%nat] /\
  ~ In 2%nat (map fst [(1%nat, RetCtxErr); (0%nat, RetNil)]).
Proof.
  exact (no_stale_record_without_Resize 2
           [OpTryAcquire 2; OpAcquire 1; OpAcquire 2; OpAcquire 9;
            OpCtxDone 1%nat; OpRelease 2; OpReady 0%nat; OpRelease 1]
           (mkWorld (mkWeighted 2 0 [] [mkElement 2 (mkWaiter 9 2%nat)])
              3 3 [0%nat] [mkCall RefImpossible 2 2%nat]
              [(1%nat, RetCtxErr); (0%nat, RetNil)])
           RefImpossible (mkElement 2 (mkWaiter 9 2%nat))
           eq_refl eq_refl (or_introl eq_refl)).
Defined.

(** ** A request above the capacity waits for a [Resize] *)

Lemma doomed_step (w w' : World) (o : op) (c : chan) :
  (c < nextChan w)%nat ->
  ~ In c (closed w) ->
  ~ In c (signals (waiters (sem w))) ->
  is_Resize o = false -> step w o = Ok w' ->
  (c < nextChan w')%nat /\
  ~ In c (closed w') /\
  ~ In c (signals (waiters (sem w'))).
Proof.
  intros Hlt Hc Hw Ho.
  destruct o as [k | k | c0 | c0 | k | k]; simpl; try discriminate.
  - intros E. inversion E; subst; clear E. simpl.
    unfold TryAcquire. destruct (_ && _); simpl; auto.
  - destruct (admits (sem w) k) eqn:Ha.
    + unfold Acquire. fold (admits (sem w) k). rewrite Ha.
      intros E. inversion E; subst; clear E. simpl. auto.
    + rewrite Acquire_slow_path by assumption.
      destruct (k >? size (sem w)); intros E; inversion E; subst; clear E;
        simpl; (split; [lia |]); (split; [exact Hc |]); [exact Hw |].
      unfold signals. rewrite map_app, in_app_iff. simpl.
      intros [H | [H | []]]; [now apply Hw | lia].
  - destruct (find_call w c0); [| discriminate].
    destruct (is_closed w c0); [| discriminate].
    intros E. inversion E; subst; clear E. simpl. auto.
  - destruct (find_call w c0) as [b |]; [| discriminate].
    unfold Acquire_ctxDone. destruct (is_closed w c0);
      intros E; inversion E; subst; clear E; simpl; [auto |].
    split; [exact Hlt |]. split; [exact Hc |].
    destruct (c_list b); simpl; [| exact Hw].
    intros H. apply Hw. unfold signals in *. apply in_map_iff in H.
    destruct H as (x & Ex & Hx). apply in_map_iff. exists x.
    split; [exact Ex |]. eapply Remove_incl; eauto.
  - destruct (Release (sem w) k) as [[s' cl] |] eqn:ER; [| discriminate].
    intros E. inversion E; subst; clear E. simpl.
    destruct (Release_effect _ _ _ _ ER) as (g & Hcl & Hq & _).
    rewrite Hq in Hw. unfold signals in Hw. rewrite map_app, in_app_iff in Hw.
    split; [exact Hlt |]. split.
    + rewrite in_app_iff, Hcl. unfold signals. tauto.
    + unfold signals. tauto.
Qed.

(** A record that sits in the impossible list (its weight exceeded the
    capacity) is never woken by a program that does not call [Resize]:
    whatever is acquired, released or canceled afterwards, its [ready]
    channel stays open, so its [Acquire] can only return by cancellation. *)
Theorem impossible_waits_for_Resize
    (k : Z) (os os' : list op) (w w' : World) (x : Element) :
  run (init k) os = Ok w ->
  In x (impossibleWaiters (sem w)) ->
  no_Resize os' = true ->
  run w os' = Ok w' ->
  ~ In (ready (Value x)) (closed w').
Proof.
  intros E Hx Hn E'.
  destruct (channels_distinct_run os _ _ (channels_distinct_init k) E)
    as [Hd Hf].
  set (c := ready (Value x)).
  assert (Hin : In c (map ready (records (waiters (sem w)) ++
                                 records (impossibleWaiters (sem w)))))
    by (apply (waiting_in_channels w RefImpossible x Hx)).
  assert (H0 : (c < nextChan w)%nat /\ ~ In c (closed w) /\
               ~ In c (signals (waiters (sem w)))).
  { unfold channels, channels_of in Hd, Hf. split; [| split].
    - rewrite Forall_forall in Hf. apply Hf. apply in_or_app. now right.
    - intros Hc. exact (NoDup_app_disjoint _ _ c Hd Hc Hin).
    - apply NoDup_app_remove_l in Hd. unfold records in Hd.
      rewrite map_app, !map_map in Hd.
      intros Hc. apply (NoDup_app_disjoint _ _ c Hd Hc).
      apply (in_map (fun e => ready (Value e))). exact Hx. }
  clear -H0 Hn E'. revert w H0 E'.
  induction os' as [| o os' IH]; intros w H0; simpl.
  - intros E. inversion E; subst. tauto.
  - simpl in Hn. apply andb_true_iff in Hn. destruct Hn as [Ho Hn].
    apply negb_true_iff in Ho.
    destruct (step w o) as [w1 | |] eqn:Es; try discriminate.
    apply (IH Hn). destruct H0 as (H1 & H2 & H3).
    eapply doomed_step; eauto.
Qed.

Lemma impossible_waits_for_Resize_witness : ~ In 0%nat [1%nat].
Proof.
  exact (impossible_waits_for_Resize 2
           [OpAcquire 5; OpTryAcquire 2]
           [OpAcquire 1; OpRelease 2; OpTryAcquire 1; OpRelease 2]
           (mkWorld (mkWeighted 2 2 [] [mkElement 0 (mkWaiter 5 0%nat)])
              1 1 [] [mkCall RefImpossible 0 0%nat] [])
           (mkWorld (mkWeighted 2 0 [] [mkElement 0 (mkWaiter 5 0%nat)])
              2 2 [1%nat]
              [mkCall RefImpossible 0 0%nat; mkCall RefWaiters 1 1%nat] [])
           (mkElement 0 (mkWaiter 5 0%nat))
           eq_refl (or_introl eq_refl) eq_refl eq_refl).
Defined.

(** ** No wake-up is missed *)

(** In a state of the data model, a [Release(k)] that frees enough for the
    waiter at the front of the queue returns, closes that waiter's channel
    first and takes it out of the queue, counting its weight in [cur]. *)
Theorem Release_wakes_front
    (s : Weighted) (k : Z) (e : Element) (q : List) :
  sane s -> waiters s = e :: q ->
  0 <= k <= cur s ->
  n (Value e) <= size s - (cur s - k) ->
  exists s' cl g,
    Release s k = Return (s', ready (Value e) :: cl) /\
    q = g ++ waiters s' /\
    cur s' = cur s - k + n (Value e) + total g.
Proof.
  intros (Hc & Hz & Hw & Hi) Hq Hk Hfit.
  assert (Es : Int64.sub (cur s) k = cur s - k)
    by (apply sub_exact; int64_bounds; lia).
  rewrite Release_returns by lia. rewrite Es, Hq.
  rewrite Hq in Hw. inversion Hw as [| ? ? He Hwq]; subst.
  assert (E1 : Int64.sub (size s) (cur s - k) = size s - (cur s - k))
    by (apply sub_exact; int64_bounds; lia).
  rewrite Release_loop_grants by (rewrite E1; lia).
  rewrite Remove_Front.
  assert (A1 : Int64.add (cur s - k) (n (Value e)) = cur s - k + n (Value e))
    by (apply add_exact; int64_bounds; lia).
  rewrite A1.
  destruct (Release_loop_prefix (size s) q (cur s - k + n (Value e)))
    as (g & rest & Hg & Hl & Hgr & _).
  rewrite Hl. rewrite Hg in Hwq. apply weights_ok_app in Hwq.
  destruct Hwq as [Hwg _].
  assert (Hr : Int64.in_range (cur s - k + n (Value e)))
    by (int64_bounds; lia).
  destruct (granted_exact (size s) g _ Hz Hr Hwg Hgr) as (Ea & _ & _).
  exists (mkWeighted (size s) (add_all (cur s - k + n (Value e)) g) rest
            (impossibleWaiters s)), (signals g), g.
  simpl. rewrite Ea. auto.
Qed.

Lemma Release_wakes_front_witness :
  exists s' cl g,
    Release (mkWeighted 3 3
               [mkElement 0 (mkWaiter 2 0%nat); mkElement 1 (mkWaiter 2 1%nat)]
               []) 2 = Return (s', 0%nat :: cl) /\
    [mkElement 1 (mkWaiter 2 1%nat)] = g ++ waiters s' /\
    cur s' = 3 - 2 + 2 + total g.
Proof.
  apply (Release_wakes_front
           (mkWeighted 3 3
              [mkElement 0 (mkWaiter 2 0%nat); mkElement 1 (mkWaiter 2 1%nat)]
              [])
           2 (mkElement 0 (mkWaiter 2 0%nat)) [mkElement 1 (mkWaiter 2 1%nat)]).
  - unfold sane, weights_ok; simpl; int64_bounds.
    repeat split; try lia; repeat constructor; simpl; lia.
  - reflexivity.
  - simpl. lia.
  - simpl. lia.
Defined.

(** [Resize(k)] wakes the first record of the reclassified queue (the
    queued records of weight at most [k], then those of the impossible
    list) as soon as its weight fits in [k - cur]: a request that was
    above the old capacity is granted by the [Resize] that makes room for
    it, without waiting for a [Release]. *)
Theorem Resize_wakes_front
    (s : Weighted) (f : nat) (k : Z) (r : waiter) (rs : list waiter) :
  0 <= cur s <= Int64.max_int -> 0 <= k <= Int64.max_int ->
  filter (fits k) (records (waiters s)) ++
  filter (fits k) (records (impossibleWaiters s)) = r :: rs ->
  n r <= k - cur s ->
  exists s' f' cl,
    Resize s f k = Return (s', f', ready r :: cl) /\
    size s' = k /\
    ~ In r (records (impossibleWaiters s')).
Proof.
  intros Hc Hk Hq Hfit.
  destruct (Resize_effect s f k (proj1 Hk))
    as (s' & f' & g & E & Hsz & Himp & Hws & [_ Hci] & Hcur & Hg).
  assert (Hr : fits k r = true).
  { assert (Hin : In r (filter (fits k) (records (waiters s)) ++
                        filter (fits k) (records (impossibleWaiters s))))
      by (rewrite Hq; now left).
    apply in_app_or in Hin. destruct Hin as [Hin | Hin];
      apply filter_In in Hin; tauto. }
  assert (Hni : ~ In r (records (impossibleWaiters s'))).
  { intros Hin. unfold records in Hin. apply in_map_iff in Hin.
    destruct Hin as (x & Ex & Hx). rewrite Forall_forall in Hci.
    apply Hci in Hx. rewrite Ex, Hsz in Hx. unfold fits in Hr.
    apply Z.leb_le in Hr. lia. }
  exists s', f'. rewrite E.
  destruct g as [| e g].
  - exfalso. simpl in Hws. rewrite Hq in Hws.
    destruct (Resize_settles _ _ _ _ _ _ E) as (_ & _ & _ & Hb).
    simpl in Hcur. rewrite Hcur in Hb. unfold front_blocked in Hb.
    destruct (waiters s') as [| e q]; [discriminate |].
    simpl in Hws, Hb. inversion Hws as [[Er Ers]]. rewrite Er in Hb.
    rewrite sub_exact in Hb by (int64_bounds; lia). lia.
  - simpl in Hws. rewrite Hq in Hws. inversion Hws as [[Er Ers]].
    exists (signals g). simpl. rewrite Er. auto.
Qed.

Lemma Resize_wakes_front_witness :
  exists s' f' cl,
    Resize (mkWeighted 1 0 [] [mkElement 0 (mkWaiter 5 0%nat)]) 1 10 =
      Return (s', f', 0%nat :: cl) /\
    size s' = 10 /\
    ~ In (mkWaiter 5 0%nat) (records (impossibleWaiters s')).
Proof.
  apply (Resize_wakes_front
           (mkWeighted 1 0 [] [mkElement 0 (mkWaiter 5 0%nat)]) 1 10
           (mkWaiter 5 0%nat) []).
  - simpl. int64_bounds. lia.
  - int64_bounds. lia.
  - reflexivity.
  - simpl. lia.
Defined.

(** ** Conservation of weight *)

Lemma weight_of_snoc_other (l : ledger) (c c' : chan) (k : Z) :
  c <> c' ->
  weight_of (mkLedger (admitted l) (released l) (asked l ++ [(c', k)])) c =
  weight_of l c.
Proof.
  intros Hne. unfold weight_of. simpl.
  induction (asked l) as [| p a IH]; simpl.
  - destruct (Nat.eqb_spec c' c); [congruence | reflexivity].
  - destruct (Nat.eqb _ c); [reflexivity | exact IH].
Qed.

Lemma weight_of_snoc_new (l : ledger) (c : chan) (k : Z) :
  Forall (fun p => (fst p < c)%nat) (asked l) ->
  weight_of (mkLedger (admitted l) (released l) (asked l ++ [(c, k)])) c = k.
Proof.
  unfold weight_of. simpl. induction 1 as [| p a Hp _ IH]; simpl.
  - now rewrite Nat.eqb_refl.
  - destruct (Nat.eqb_spec (fst p) c); [lia | exact IH].
Qed.

Lemma granted_weight_app (l : ledger) (a b : list chan) :
  granted_weight l (a ++ b) = granted_weight l a + granted_weight l b.
Proof.
  unfold granted_weight. induction a as [| c a IH]; simpl; [reflexivity |].
  rewrite IH. lia.
Qed.

Lemma granted_weight_ext (l l' : ledger) (cl : list chan) :
  (forall c, In c cl -> weight_of l' c = weight_of l c) ->
  granted_weight l' cl = granted_weight l cl.
Proof.
  unfold granted_weight. induction cl as [| c cl IH]; simpl; intros H;
    [reflexivity |].
  rewrite H by now left. rewrite IH; [reflexivity |]. intros; apply H; now right.
Qed.

Lemma granted_weight_signals (l : ledger) (g : List) :
  (forall x, In x g -> weight_of l (ready (Value x)) = n (Value x)) ->
  granted_weight l (signals g) = total g.
Proof.
  unfold granted_weight, signals, total.
  induction g as [| x g IH]; simpl; intros H; [reflexivity |].
  rewrite H by now left. rewrite IH; [reflexivity |]. intros; apply H; now right.
Qed.

Lemma weight_of_same_asked (l l' : ledger) (c : chan) :
  asked l' = asked l -> weight_of l' c = weight_of l c.
Proof. unfold weight_of. now intros ->. Qed.

Lemma granted_weight_same_asked (l l' : ledger) (cl : list chan) :
  asked l' = asked l -> granted_weight l' cl = granted_weight l cl.
Proof.
  intros H. apply granted_weight_ext. intros. now apply weight_of_same_asked.
Qed.

Lemma balanced_fast (w : World) (l : ledger) (k : Z) :
  balanced w l -> sane (sem w) -> 0 <= k <= Int64.max_int ->
  admits (sem w) k = true ->
  balanced
    (mkWorld (set_cur (sem w) (Int64.add (cur (sem w)) k)) (nextElem w)
       (nextChan w) (closed w) (blocked w) (returned w))
    (mkLedger (admitted l + k) (released l) (asked l)).
Proof.
  intros (I1 & I2 & I3) Hs Hk Ha.
  destruct (fast_path_exact _ _ Hs Hk Ha) as [E _].
  unfold balanced. simpl. rewrite E. split; [| split; [| exact I3]].
  - rewrite (granted_weight_same_asked l) by reflexivity. lia.
  - intros r Hr. rewrite (weight_of_same_asked l) by reflexivity. now apply I2.
Qed.

Lemma cur_setList (s : Weighted) (L : listRef) (l : List) :
  cur (setList s L l) = cur s.
Proof. now destruct L. Qed.

Lemma balanced_blocked (w : World) (l : ledger) (L : listRef) (k : Z) :
  balanced w l -> channels_distinct w ->
  balanced
    (mkWorld
       (setList (sem w) L
          (getList (sem w) L ++
           [mkElement (nextElem w) (mkWaiter k (nextChan w))]))
       (S (nextElem w)) (S (nextChan w)) (closed w)
       (blocked w ++ [mkCall L (nextElem w) (nextChan w)]) (returned w))
    (mkLedger (admitted l) (released l) (asked l ++ [(nextChan w, k)])).
Proof.
  intros (I1 & I2 & I3) [_ Hf]. unfold channels, channels_of in Hf.
  apply Forall_app in Hf. destruct Hf as [Hfc Hfw].
  rewrite Forall_forall in Hfc, Hfw.
  unfold balanced. simpl. rewrite cur_setList. split; [| split].
  - rewrite I1. f_equal. f_equal. symmetry. apply granted_weight_ext.
    intros c Hc. apply weight_of_snoc_other. apply Hfc in Hc. lia.
  - intros r Hr.
    assert (Hcase : In r (records (waiters (sem w)) ++
                          records (impossibleWaiters (sem w))) \/
                    r = mkWaiter k (nextChan w)).
    { unfold records in *. destruct L; simpl in Hr;
        rewrite ?map_app, ?in_app_iff in Hr; simpl in Hr;
        rewrite in_app_iff; intuition. }
    destruct Hcase as [Hold | ->].
    + rewrite weight_of_snoc_other; [now apply I2 |].
      assert (Hlt : (ready r < nextChan w)%nat)
        by (apply Hfw; now apply in_map).
      lia.
    + simpl. now apply weight_of_snoc_new.
  - apply Forall_app. split.
    + eapply Forall_impl; [| exact I3]. simpl. intros; lia.
    + constructor; [simpl; lia | constructor].
Qed.

Lemma balanced_sub (w w' : World) (l : ledger) :
  balanced w l ->
  cur (sem w') = cur (sem w) -> closed w' = closed w ->
  incl (records (waiters (sem w')) ++ records (impossibleWaiters (sem w')))
       (records (waiters (sem w)) ++ records (impossibleWaiters (sem w))) ->
  (nextChan w <= nextChan w')%nat ->
  balanced w' l.
Proof.
  intros (I1 & I2 & I3) Hc Hcl Hi Hn. unfold balanced.
  rewrite Hc, Hcl. split; [exact I1 |]. split.
  - intros r Hr. apply I2. now apply Hi.
  - eapply Forall_impl; [| exact I3]. simpl. intros; lia.
Qed.

Lemma records_Remove_incl (l : List) (h : nat) :
  incl (records (Remove l h)) (records l).
Proof.
  intros r Hr. unfold records in *. apply in_map_iff in Hr.
  destruct Hr as (x & E & Hx). apply in_map_iff. exists x.
  split; [exact E |]. eapply Remove_incl; eauto.
Qed.

Lemma balanced_woken (w : World) (l : ledger) (s' : Weighted) (g : List)
    (ne : nat) (c0 : Z) :
  balanced w l ->
  cur s' = c0 + total g ->
  incl (records g ++ records (waiters s') ++ records (impossibleWaiters s'))
       (records (waiters (sem w)) ++ records (impossibleWaiters (sem w))) ->
  balanced
    (mkWorld s' ne (nextChan w) (closed w ++ signals g) (blocked w)
       (returned w))
    (mkLedger (admitted l) (released l + (cur (sem w) - c0)) (asked l)).
Proof.
  intros (I1 & I2 & I3) Hc Hi. unfold balanced. simpl.
  split; [| split; [| exact I3]].
  - rewrite (granted_weight_same_asked l) by reflexivity.
    rewrite granted_weight_app, granted_weight_signals, Hc; [lia |].
    intros x Hx. apply I2. apply Hi. apply in_or_app. left.
    now apply in_map.
  - intros r Hr. rewrite (weight_of_same_asked l) by reflexivity.
    apply I2. apply Hi. apply in_or_app. now right.
Qed.

Lemma balanced_ledger (w : World) (l l' : ledger) :
  balanced w l ->
  admitted l' = admitted l -> released l' = released l ->
  asked l' = asked l ->
  balanced w l'.
Proof.
  intros (I1 & I2 & I3) Ha Hr Hk. unfold balanced.
  rewrite Ha, Hr, Hk, (granted_weight_same_asked l l') by exact Hk.
  split; [exact I1 |]. split; [| exact I3].
  intros r Hin. rewrite (weight_of_same_asked l l') by exact Hk. now apply I2.
Qed.

Lemma balanced_step (w w' : World) (o : op) (l : ledger) :
  balanced w l -> sane (sem w) -> channels_distinct w ->
  valid_op o = true -> step w o = Ok w' ->
  balanced w' (book w o l).
Proof.
  intros Hb Hs Hd Hv.
  destruct o as [k | k | c | c | k | k]; unfold step, book.
  - apply weight_ok_spec in Hv.
    unfold TryAcquire. fold (admits (sem w) k).
    destruct (admits (sem w) k) eqn:Ha; simpl;
      intros E; inversion E; subst; clear E.
    + now apply balanced_fast.
    + apply (balanced_sub w); simpl; auto. apply incl_refl.
  - apply weight_ok_spec in Hv.
    destruct (admits (sem w) k) eqn:Ha.
    + unfold Acquire. fold (admits (sem w) k). rewrite Ha. simpl.
      intros E; inversion E; subst; clear E. now apply balanced_fast.
    + rewrite Acquire_slow_path by assumption.
      destruct (k >? size (sem w)); simpl;
        intros E; inversion E; subst; clear E.
      * apply (balanced_blocked w l RefImpossible k); assumption.
      * apply (balanced_blocked w l RefWaiters k); assumption.
  - destruct (find_call w c); [| discriminate].
    destruct (is_closed w c); [| discriminate].
    intros E; inversion E; subst; clear E.
    apply (balanced_sub w); simpl; auto. apply incl_refl.
  - destruct (find_call w c) as [b |]; [| discriminate].
    unfold Acquire_ctxDone. destruct (is_closed w c);
      intros E; inversion E; subst; clear E.
    + apply (balanced_sub w); simpl; auto. apply incl_refl.
    + apply (balanced_sub w); simpl; auto.
      * apply cur_setList.
      * destruct (c_list b); simpl.
        -- apply incl_app; [apply incl_appl, records_Remove_incl |
                            apply incl_appr, incl_refl].
        -- apply incl_app; [apply incl_appl, incl_refl |
                            apply incl_appr, records_Remove_incl].
  - apply weight_ok_spec in Hv.
    destruct (Release (sem w) k) as [[s' cl] |] eqn:ER; [| discriminate].
    intros E; inversion E; subst; clear E.
    destruct (Release_effect _ _ _ _ ER)
      as (g & Hcl & Hq & Hcur & Hg & _ & Hpos & Hsz & Hi).
    destruct Hs as (Hc & Hz & Hw & Hiw).
    assert (Es : Int64.sub (cur (sem w)) k = cur (sem w) - k)
      by (apply sub_exact; int64_bounds; lia).
    rewrite Es in *.
    rewrite Hq in Hw. apply weights_ok_app in Hw. destruct Hw as [Hwg _].
    destruct (granted_exact (size (sem w)) g (cur (sem w) - k))
      as (Ea & _ & _); try assumption.
    { int64_bounds; lia. }
    rewrite Ea in Hcur. subst cl.
    eapply balanced_ledger;
      [apply (balanced_woken w l s' g (nextElem w) (cur (sem w) - k) Hb Hcur)
      | reflexivity | simpl; lia | reflexivity].
    rewrite Hq, Hi, records_app, <- app_assoc. apply incl_refl.
  - apply is_int64_spec in Hv.
    destruct (Resize (sem w) (nextElem w) k) as [[[s' f'] cl] |] eqn:ER;
      [| discriminate].
    intros E; inversion E; subst; clear E.
    destruct (Z.lt_ge_cases k 0) as [Hneg | Hk].
    { rewrite Resize_panics in ER by assumption. discriminate. }
    destruct (Resize_effect (sem w) (nextElem w) k Hk)
      as (s2 & f2 & g & E2 & Hsz & Himp & Hws & _ & Hcur & Hg).
    rewrite E2 in ER. inversion ER; subst s2 f2 cl; clear ER.
    destruct Hs as (Hc & Hz & Hw & Hiw).
    assert (Hincl : incl (records g ++ records (waiters s') ++
                          records (impossibleWaiters s'))
                         (records (waiters (sem w)) ++
                          records (impossibleWaiters (sem w)))).
    { rewrite app_assoc, Hws, Himp. intros r Hr.
      apply in_app_or in Hr. destruct Hr as [Hr | Hr].
      - now apply incl_filter_app in Hr.
      - apply in_app_or in Hr. apply in_or_app.
        destruct Hr as [Hr | Hr]; apply filter_In in Hr; tauto. }
    assert (Hwg : weights_ok g).
    { apply (weights_ok_records (waiters (sem w) ++ impossibleWaiters (sem w))).
      - rewrite records_app. intros r Hr. apply Hincl.
        apply in_or_app. now left.
      - apply weights_ok_app. tauto. }
    destruct (granted_exact k g (cur (sem w))) as (Ea & _ & _);
      try assumption.
    { int64_bounds; lia. }
    { int64_bounds; lia. }
    rewrite Ea in Hcur.
    eapply balanced_ledger;
      [apply (balanced_woken w l s' g f' (cur (sem w)) Hb Hcur Hincl)
      | reflexivity | simpl; lia | reflexivity].
Qed.

Lemma balanced_run (os : list op) : forall w0 l0 w,
  balanced w0 l0 -> sane (sem w0) -> channels_distinct w0 ->
  forallb valid_op os = true -> run w0 os = Ok w ->
  balanced w (audit w0 os l0).
Proof.
  induction os as [| o os IH]; intros w0 l0 w Hb Hs Hd Hv; simpl.
  - intros E. now inversion E; subst.
  - simpl in Hv. apply andb_true_iff in Hv. destruct Hv as [Ho Hv].
    destruct (step w0 o) as [w1 | |] eqn:Es; try discriminate.
    apply IH; try assumption.
    + eapply balanced_step; eauto.
    + now destruct (sane_step _ _ _ Hs Ho Es).
    + eapply channels_distinct_step; eauto.
Qed.

(** Conservation.  Let the callers of a program of valid calls keep a
    ledger: the weights taken by every [TryAcquire] that returned true and
    every [Acquire] that returned at once, the weights passed to [Release],
    and for every [Acquire] that blocked the weight it asked for.  Then in
    every state reached, [cur] is what was taken at once, plus what the
    blocked calls whose channel has been closed asked for, minus what was
    released: a grant counts exactly the weight the waiter asked for, also
    after [Resize] has moved its record, and nothing else moves [cur]. *)
Theorem weight_is_conserved (k : Z) (os : list op) (w : World) :
  0 <= k <= Int64.max_int ->
  forallb valid_op os = true ->
  run (init k) os = Ok w ->
  cur (sem w) =
    admitted (audit (init k) os (mkLedger 0 0 [])) +
    granted_weight (audit (init k) os (mkLedger 0 0 [])) (closed w) -
    released (audit (init k) os (mkLedger 0 0 [])).
Proof.
  intros Hk Hv E.
  assert (H0 : balanced (init k) (mkLedger 0 0 [])).
  { unfold balanced. simpl. split; [reflexivity |].
    split; [intros r [] | constructor]. }
  exact (proj1 (balanced_run os _ _ _ H0 (sane_NewWeighted k Hk)
                  (channels_distinct_init k) Hv E)).
Qed.

Lemma weight_is_conserved_witness : 3 = 3 + (3 + 0) - 3.
Proof.
  exact (weight_is_conserved 3
           [OpTryAcquire 1; OpAcquire 5; OpAcquire 2; OpAcquire 3;
            OpTryAcquire 1; OpResize 6; OpRelease 3; OpCtxDone 1%nat;
            OpRelease 0]
           (mkWorld (mkWeighted 6 3 [mkElement 2 (mkWaiter 5 0%nat)] [])
              3 2 [1%nat]
              [mkCall RefImpossible 0 0%nat]
              [(1%nat, RetNil)])
           ltac:(vm_compute; split; discriminate) eq_refl eq_refl).
Defined.
